(** * The head change coalescer of chain/store/coalescer.go

    A shallow embedding of [HeadChangeCoalescer]: the merge of an incoming
    head change into the pending one ([coalesce]), the dispatcher
    ([dispatch]), the three branches of the select of [background], and the
    two entry points [HeadChange] and [Close].

    Conventions of the embedding.
    - A Go slice is [nil] or a non-nil sequence; the code tests
      [c.revert != nil], so the difference is kept: [slice T] is
      [option (list T)] with [None] for nil.
    - [map[types.TipSetKey]struct{}] is a [gmap TipSetKey ()].
    - [types.TipSet] and [types.TipSetKey] are declared outside this file of
      the repository; they are parameters, with the method [Key].
    - Time is an integer (nanoseconds, as [time.Duration]); [time.After(delay)]
      called at [now] is a channel that becomes readable at [now + delay], and
      is represented by that deadline.
    - The consumer callback may have effects of its own: it runs over a world
      [W] of the consumer. The machine records every invocation of the
      callback and every line sent to the error log. *)

From Stdlib Require Import ZArith String.
From stdpp Require Import base decidable option list gmap.

Local Open Scope Z_scope.

(** ** Data *)

(** [ts.Key()] of [types.TipSet]. *)
Class HasKey (TipSet TipSetKey : Type) := Key : TipSet → TipSetKey.

(** A slice value: [None] is the nil slice. *)
Definition slice (T : Type) : Type := option (list T).

(** The elements a [for _, ts := range s] visits, in order. *)
Definition items {T} (s : slice T) : list T := default [] s.

(** [s != nil]. *)
Definition non_nil {T} (s : slice T) : bool :=
  match s with Some _ => true | None => false end.

(** Go's [error] values met here: [context.Canceled], returned by
    [ctx.Err()] once the context is cancelled, and whatever the consumer
    callback returns. *)
Inductive error : Type :=
| Canceled
| Failure (msg : string).

(** [type headChange struct { revert, apply []*types.TipSet }] *)
Record headChange (T : Type) : Type := HC {
  hc_revert : slice T;
  hc_apply : slice T
}.
Arguments HC {T} _ _.
Arguments hc_revert {T} _.
Arguments hc_apply {T} _.

(** [ReorgNotifee], run over the consumer's world: [None] is a nil error. *)
Definition ReorgNotifee (T W : Type) : Type :=
  slice T → slice T → W → option error * W.

(** The fields of [HeadChangeCoalescer] the code reads and writes. [ctx] is
    kept as the one bit the code observes of it (is [ctx.Done()] closed);
    [cancel] is [Close]'s write of that bit; [eventq] has capacity zero, so a
    send and its receive are one step of the machine and the channel holds
    nothing in between. *)
Record HeadChangeCoalescer (T W : Type) : Type := Coalescer {
  notify : ReorgNotifee T W;
  ctx_done : bool;
  c_revert : slice T;
  c_apply : slice T
}.
Arguments Coalescer {T W} _ _ _ _.
Arguments notify {T W} _.
Arguments ctx_done {T W} _.
Arguments c_revert {T W} _.
Arguments c_apply {T W} _.

(** One invocation of the consumer callback, as the consumer sees it. *)
Record call (T : Type) : Type := Call {
  call_time : Z;
  call_revert : slice T;
  call_apply : slice T
}.
Arguments Call {T} _ _ _.
Arguments call_time {T} _.
Arguments call_revert {T} _.
Arguments call_apply {T} _.

(** The coalescer together with the local state of its goroutine and with
    what it has done to the outside. [timerC] is the local variable of
    [background]: [None] is the nil channel, [Some d] a timer that fires at
    [d]. [running] is false once [background] has returned. *)
Record machine (T W : Type) : Type := Machine {
  hcc : HeadChangeCoalescer T W;
  timerC : option Z;
  running : bool;
  consumer : W;
  calls : list (call T);
  logged : list error
}.
Arguments Machine {T W} _ _ _ _ _ _.
Arguments hcc {T W} _.
Arguments timerC {T W} _.
Arguments running {T W} _.
Arguments consumer {T W} _.
Arguments calls {T W} _.
Arguments logged {T W} _.

(** The case [select] of [background] takes in one pass of its loop. *)
Inductive selected (T : Type) : Type :=
| RecvEvent (evt : headChange T)
| RecvTimer
| RecvDone.
Arguments RecvEvent {T} _.
Arguments RecvTimer {T}.
Arguments RecvDone {T}.

(** What happens to a coalescer, seen from outside: a producer calls
    [HeadChange], somebody calls [Close], or the goroutine of [background]
    wakes on its timer or on [ctx.Done()]. *)
Inductive action (T : Type) : Type :=
| Submit (revert apply : slice T)
| Shutdown
| Expire
| Observe.
Arguments Submit {T} _ _.
Arguments Shutdown {T}.
Arguments Expire {T}.
Arguments Observe {T}.

Section Model.
Context {TipSet TipSetKey W : Type}.
Context `{Countable TipSetKey} `{!HasKey TipSet TipSetKey}.

(** ** coalesce *)

(** [m := make(map[types.TipSetKey]struct{}, len(s));
    for _, ts := range s { m[ts.Key()] = struct{}{} }] *)
Definition keys_of (s : slice TipSet) : gmap TipSetKey () :=
  foldl (λ m ts, <[Key ts := tt]> m) ∅ (items s).

(** [for _, ts := range s { _, cancel := cancelling[ts.Key()];
    if cancel { continue }; out = append(out, ts) }] *)
Definition append_uncancelled (cancelling : gmap TipSetKey ())
    (out : list TipSet) (s : slice TipSet) : list TipSet :=
  foldl (λ out ts,
           match cancelling !! Key ts with
           | Some _ => out
           | None => out ++ [ts]
           end) out (items s).

Definition coalesce (c : HeadChangeCoalescer TipSet W)
    (revert apply : slice TipSet) : HeadChangeCoalescer TipSet W :=
  (* pending tipsets *)
  let pendRevert := keys_of (c_revert c) in
  let pendApply := keys_of (c_apply c) in
  (* incoming tipsets *)
  let reverting := keys_of revert in
  let applying := keys_of apply in
  (* coalesced revert set *)
  let newRevert := [] in
  let newRevert := append_uncancelled applying newRevert (c_revert c) in
  let newRevert := append_uncancelled pendApply newRevert revert in
  (* coalesced apply set *)
  let newApply := [] in
  let newApply := append_uncancelled reverting newApply (c_apply c) in
  let newApply := append_uncancelled pendRevert newApply apply in
  (* commit the coalesced sets *)
  Coalescer (notify c) (ctx_done c) (Some newRevert) (Some newApply).

(** ** dispatch *)

Definition dispatch (now : Z) (m : machine TipSet W) : machine TipSet W :=
  let c := hcc m in
  let '(err, w) := notify c (c_revert c) (c_apply c) (consumer m) in
  Machine (Coalescer (notify c) (ctx_done c) None None)
          (timerC m) (running m) w
          (calls m ++ [Call now (c_revert c) (c_apply c)])
          (match err with
           | Some e => logged m ++ [e]
           | None => logged m
           end).

(** ** background *)

Section Loop.
Variable delay : Z.

(** [case evt := <-c.eventq] *)
Definition on_event (now : Z) (evt : headChange TipSet)
    (m : machine TipSet W) : machine TipSet W :=
  let c := coalesce (hcc m) (hc_revert evt) (hc_apply evt) in
  let timer :=
    match timerC m with
    | None => Some (now + delay)
    | Some d => Some d
    end in
  Machine c timer (running m) (consumer m) (calls m) (logged m).

(** [case <-timerC] *)
Definition on_timer (now : Z) (m : machine TipSet W) : machine TipSet W :=
  let m := dispatch now m in
  Machine (hcc m) None (running m) (consumer m) (calls m) (logged m).

(** [case <-c.ctx.Done()] *)
Definition on_done (now : Z) (m : machine TipSet W) : machine TipSet W :=
  let m :=
    if non_nil (c_revert (hcc m)) || non_nil (c_apply (hcc m))
    then dispatch now m
    else m in
  Machine (hcc m) (timerC m) false (consumer m) (calls m) (logged m).

(** Can the [select] of [background] take this case at time [now]? A
    receive from the nil channel never can; the timer's channel can from
    its deadline on; [ctx.Done()] can once it is closed; [eventq] can
    when a producer is sending, which is what scheduling [RecvEvent]
    means. Nothing can once [background] has returned. *)
Definition ready (now : Z) (s : selected TipSet)
    (m : machine TipSet W) : bool :=
  running m &&
  match s with
  | RecvEvent _ => true
  | RecvTimer =>
      match timerC m with
      | Some d => bool_decide (d ≤ now)
      | None => false
      end
  | RecvDone => ctx_done (hcc m)
  end.

(** One pass through [for { select { ... } }]. *)
Definition background_iter (now : Z) (s : selected TipSet)
    (m : machine TipSet W) : option (machine TipSet W) :=
  if ready now s m then
    Some match s with
         | RecvEvent evt => on_event now evt m
         | RecvTimer => on_timer now m
         | RecvDone => on_done now m
         end
  else None.

(** ** The entry points *)

(** [HeadChange]: a [select] between a send on [eventq] and a receive from
    [ctx.Done()]. [eventq] has no buffer, so the send completes only in a
    rendezvous with the [select] of [background], whose event branch then
    runs: a call that returns nil is one pass of the loop. Cancelling the
    context wakes every goroutine parked on [ctx.Done()], the producers
    parked in [HeadChange] among them, and from then on [background] is
    never parked on its [select]; so once the context is cancelled no send
    completes and the call returns [ctx.Err()]. While the context is live
    [background] has not returned. *)
Definition HeadChange (now : Z) (revert apply : slice TipSet)
    (m : machine TipSet W) : option error * machine TipSet W :=
  if ctx_done (hcc m) then (Some Canceled, m)
  else (None, on_event now (HC revert apply) m).

(** [Close]: cancel the context unless it is cancelled already. *)
Definition Close (m : machine TipSet W) : option error * machine TipSet W :=
  let c := hcc m in
  (None,
   if ctx_done c then m
   else Machine (Coalescer (notify c) true (c_revert c) (c_apply c))
                (timerC m) (running m) (consumer m) (calls m) (logged m)).

(** ** Schedules *)

(** One timed action. [Expire] and [Observe] are the goroutine of
    [background] taking the timer case and the [ctx.Done()] case of its
    [select]; a case that is not ready is not taken, and the machine stays
    as it is. *)
Definition exec (m : machine TipSet W) (ta : Z * action TipSet)
    : machine TipSet W :=
  let now := ta.1 in
  match ta.2 with
  | Submit revert apply => (HeadChange now revert apply m).2
  | Shutdown => (Close m).2
  | Expire => default m (background_iter now RecvTimer m)
  | Observe => default m (background_iter now RecvDone m)
  end.

Definition run (sched : list (Z * action TipSet)) (m : machine TipSet W)
    : machine TipSet W :=
  foldl exec m sched.

(** The timer of a running loop is overdue at [now] when its deadline is
    strictly before [now]. *)
Definition overdue (now : Z) (m : machine TipSet W) : bool :=
  running m &&
  match timerC m with
  | Some d => bool_decide (d < now)
  | None => false
  end.

(** A schedule is punctual when nothing happens while the timer is
    overdue: the goroutine takes the timer case at the deadline, before
    anything later. The properties of the specification that speak of the
    delay are about such schedules; a submission and an expiry at the same
    instant may come in either order. *)
Fixpoint punctual (sched : list (Z * action TipSet))
    (m : machine TipSet W) : bool :=
  match sched with
  | [] => true
  | ta :: rest => negb (overdue ta.1 m) && punctual rest (exec m ta)
  end.
End Loop.

(** [NewHeadChangeCoalescer(fn, delay)], with the consumer in world [w]. *)
Definition NewHeadChangeCoalescer (fn : ReorgNotifee TipSet W) (w : W)
    : machine TipSet W :=
  Machine (Coalescer fn false None None) None true w [] [].
End Model.


(** ** The merge, in the words of the specification

    The sequences below are written from section 4.1 of the specification,
    to be compared with [coalesce]. *)

Section Merge.
Context {TipSet TipSetKey : Type}.
Context `{Countable TipSetKey} `{!HasKey TipSet TipSetKey}.

(** The key [k] is the key of some element of [s]. *)
Definition has_key (k : TipSetKey) (s : slice TipSet) : Prop :=
  k ∈ Key <$> items s.

#[global] Instance has_key_dec k s : Decision (has_key k s).
Proof. unfold has_key. apply _. Defined.

(** The elements of [src] whose key is not in [against], in the order of
    [src]. *)
Definition survivors (src against : slice TipSet) : list TipSet :=
  filter (λ ts, ¬ has_key (Key ts) against) (items src).

(** Steps 2 and 3 of the algorithm: the new revert and the new apply
    sequence for the pending pair [(R, A)] and the incoming pair [(r, a)]. *)
Definition merge (R A r a : slice TipSet) : list TipSet * list TipSet :=
  (survivors R a ++ survivors r A, survivors A r ++ survivors a R).

(** No key is in both sequences. *)
Definition key_disjoint (revert apply : slice TipSet) : Prop :=
  ∀ k, ¬ (has_key k revert ∧ has_key k apply).
End Merge.

(** ** Vocabulary of the properties of the loop *)

Section Bursts.
Context {TipSet TipSetKey W : Type}.
Context `{Countable TipSetKey} `{!HasKey TipSet TipSetKey}.

(** Pending State holds nothing at all: both fields are nil, as after
    [NewHeadChangeCoalescer] and after every [dispatch]. *)
Definition pending_nil (m : machine TipSet W) : Prop :=
  c_revert (hcc m) = None ∧ c_apply (hcc m) = None.

(** Pending State contains no tipset: both sequences are without elements,
    nil or not. *)
Definition pending_empty (m : machine TipSet W) : Prop :=
  items (c_revert (hcc m)) = [] ∧ items (c_apply (hcc m)) = [].

(** The loop is waiting with nothing pending, no timer armed, and the
    context live. *)
Definition idle (m : machine TipSet W) : Prop :=
  running m = true ∧ ctx_done (hcc m) = false ∧ timerC m = None
  ∧ pending_nil m.

(** The submissions of a burst, each at its time of arrival. *)
Definition submissions (burst : list (Z * headChange TipSet))
    : list (Z * action TipSet) :=
  (λ te, (te.1, Submit (hc_revert te.2) (hc_apply te.2))) <$> burst.

(** The events a schedule submits, each with its time of arrival. *)
Definition submitted (sched : list (Z * action TipSet))
    : list (Z * headChange TipSet) :=
  omap (λ ta, match ta.2 with
              | Submit revert apply => Some (ta.1, HC revert apply)
              | _ => None
              end) sched.

(** The net effect of a sequence of events on a coalescer: every event
    merged, in order. *)
Definition net_effect (c : HeadChangeCoalescer TipSet W)
    (evts : list (headChange TipSet)) : HeadChangeCoalescer TipSet W :=
  foldl (λ c evt, coalesce c (hc_revert evt) (hc_apply evt)) c evts.

(** Consecutive arrivals of a burst are strictly less than [delay] apart. *)
Fixpoint closely_spaced (delay : Z) (times : list Z) : Prop :=
  match times with
  | t1 :: ((t2 :: _) as later) =>
      t1 ≤ t2 ∧ t2 - t1 < delay ∧ closely_spaced delay later
  | _ => True
  end.

(** An action that submits an event submits one whose revert and apply
    sequences share no key. *)
Definition consistent (act : action TipSet) : Prop :=
  match act with
  | Submit revert apply => key_disjoint revert apply
  | _ => True
  end.
(** The context is cancelled, nothing is pending, and no timer is armed
    while the loop still runs: all that is left to happen is the return of
    [background]. *)
Definition drained (m : machine TipSet W) : Prop :=
  ctx_done (hcc m) = true ∧ pending_nil m
  ∧ (running m = true → timerC m = None).

(** While the loop runs, an armed timer means that an event has been merged
    since the last dispatch: both pending sequences are non-nil. *)
Definition timer_has_cause (m : machine TipSet W) : Prop :=
  running m = true → is_Some (timerC m) →
  non_nil (c_revert (hcc m)) = true ∧ non_nil (c_apply (hcc m)) = true.
(** [background] has returned only if the context is cancelled. *)
Definition returns_on_cancel (m : machine TipSet W) : Prop :=
  running m = false → ctx_done (hcc m) = true.
(** Does the schedule call [Close]? *)
Definition shuts_down (sched : list (Z * action TipSet)) : bool :=
  existsb (λ ta, match ta.2 with Shutdown => true | _ => false end) sched.
End Bursts.

(** ** The wrapper, and the vocabulary of the further properties *)

Section Wrapper.
Context {TipSet TipSetKey W : Type}.
Context `{Countable TipSetKey} `{!HasKey TipSet TipSetKey}.

(** [WrapHeadChangeCoalescer(fn, delay)]: a new coalescer, of which the
    caller receives the method value [c.HeadChange] and nothing else. The
    machine is what the method value closes over. *)
Definition WrapHeadChangeCoalescer (fn : ReorgNotifee TipSet W) (delay : Z)
    (w : W)
    : machine TipSet W
      * (Z → slice TipSet → slice TipSet → machine TipSet W
         → option error * machine TipSet W) :=
  let c := NewHeadChangeCoalescer fn w in
  (c, HeadChange delay).

(** Both sequences handed to the callback are non-nil. *)
Definition non_nil_call (cl : call TipSet) : Prop :=
  non_nil (call_revert cl) = true ∧ non_nil (call_apply cl) = true.

(** What [background] keeps true of the machine: the two pending fields are
    nil together; while the loop runs, a timer is armed exactly when
    something is pending; once the loop has returned, the context is
    cancelled and nothing is pending; and the callback has only ever been
    given non-nil sequences. *)
Definition well_kept (m : machine TipSet W) : Prop :=
  non_nil (c_revert (hcc m)) = non_nil (c_apply (hcc m))
  ∧ (running m = true →
     (is_Some (timerC m) ↔ non_nil (c_revert (hcc m)) = true))
  ∧ (running m = false → pending_nil m ∧ ctx_done (hcc m) = true)
  ∧ Forall non_nil_call (calls m).

(** One when something is pending, zero otherwise: the dispatch that is due. *)
Definition owed (m : machine TipSet W) : nat :=
  if non_nil (c_revert (hcc m)) then 1%nat else 0%nat.

(** The events of a schedule that [HeadChange] accepts: those submitted
    before the first call of [Close]. *)
Fixpoint accepted (sched : list (Z * action TipSet))
    : list (headChange TipSet) :=
  match sched with
  | [] => []
  | ta :: rest =>
      match ta.2 with
      | Submit revert apply => HC revert apply :: accepted rest
      | Shutdown => []
      | _ => accepted rest
      end
  end.

(** The pair of sequences a group of events merges into, starting with
    nothing pending. *)
Definition batch (fn : ReorgNotifee TipSet W)
    (evts : list (headChange TipSet)) : slice TipSet * slice TipSet :=
  let c := net_effect (Coalescer fn false None None) evts in
  (c_revert c, c_apply c).

(** The events [evts] have been delivered by [m]: they split, in order,
    into groups that are not empty and a last, pending group; the callback
    has been invoked once per group, in order, with what the group merges
    into; Pending State is what the pending group merges into; and the
    pending group is empty once the loop has returned. *)
Definition delivered (fn : ReorgNotifee TipSet W) (m : machine TipSet W)
    (evts : list (headChange TipSet)) : Prop :=
  ∃ groups cur,
    evts = concat groups ++ cur
    ∧ Forall (λ g, g ≠ []) groups
    ∧ (λ cl, (call_revert cl, call_apply cl)) <$> calls m
      = batch fn <$> groups
    ∧ (c_revert (hcc m), c_apply (hcc m)) = batch fn cur
    ∧ (running m = false → cur = []).
End Wrapper.

(** ** Sample data, for the examples *)

Module Sample.
(** A tipset reduced to its key and its height. *)
Record tipset : Type := TS { ts_key : positive; ts_height : Z }.

#[export] Instance tipset_key : HasKey tipset positive := ts_key.

Definition T1 : tipset := TS 1 100.
Definition T2 : tipset := TS 2 101.
Definition T3 : tipset := TS 3 102.

(** A consumer that counts its invocations and accepts every batch. *)
Definition accept : ReorgNotifee tipset nat :=
  λ _ _ n, (None, S n).

(** A consumer that counts its invocations and fails on every batch. *)
Definition reject : ReorgNotifee tipset nat :=
  λ _ _ n, (Some (Failure "state computation failed"), S n).

(** A coalescer as [NewHeadChangeCoalescer] makes it, for each consumer. *)
Definition fresh : machine tipset nat := NewHeadChangeCoalescer accept 0%nat.
Definition fresh_rejecting : machine tipset nat :=
  NewHeadChangeCoalescer reject 0%nat.

(** Three applications, 6 apart, for a delay of 10. *)
Definition slow_burst : list (Z * headChange tipset) :=
  [(0, HC None (Some [T1])); (6, HC None (Some [T2]));
   (12, HC None (Some [T3]))].

(** The same submissions with the two expirations of the timer they cause. *)
Definition slow_burst_schedule : list (Z * action tipset) :=
  [(0, Submit None (Some [T1])); (6, Submit None (Some [T2])); (10, Expire);
   (12, Submit None (Some [T3])); (22, Expire)].

(** An application and its reversal, the next moment. *)
Definition apply_then_revert : list (Z * action tipset) :=
  [(0, Submit None (Some [T1])); (1, Submit (Some [T1]) None)].
End Sample.


(** * Properties of the merge *)

Section MergeProperties.
Context {TipSet TipSetKey W : Type}.
Context `{Countable TipSetKey} `{!HasKey TipSet TipSetKey}.
Implicit Types (c : HeadChangeCoalescer TipSet W) (R A r a s : slice TipSet).
Implicit Types (k : TipSetKey) (ts : TipSet).

(** The index built by the first four loops holds exactly the keys of the
    slice it is built from. *)
Lemma keys_of_lookup s k : is_Some (keys_of s !! k) ↔ has_key k s.
Proof.
  unfold keys_of, has_key.
  assert (G : ∀ (l : list TipSet) (m : gmap TipSetKey ()),
             is_Some (foldl (λ m ts, <[Key ts := tt]> m) m l !! k)
             ↔ is_Some (m !! k) ∨ k ∈ Key <$> l).
  { induction l as [|ts l IH]; intros m.
    - rewrite fmap_nil, elem_of_nil. simpl. tauto.
    - rewrite fmap_cons, elem_of_cons. cbn [foldl].
      rewrite IH, lookup_insert_is_Some'. intuition (subst; auto). }
  rewrite G, lookup_empty. split; [intros [[? [=]]|]|]; auto.
Qed.

Lemma keys_of_lookup_None s k : keys_of s !! k = None ↔ ¬ has_key k s.
Proof. rewrite <- keys_of_lookup, eq_None_not_Some. tauto. Qed.

(** A filtering loop appends the survivors of its slice to what was there. *)
Lemma append_uncancelled_survivors against out s :
  append_uncancelled (keys_of against) out s = out ++ survivors s against.
Proof.
  unfold append_uncancelled, survivors.
  generalize (items s) as l. intros l. revert out.
  induction l as [|ts l IH]; intros out; simpl.
  - by rewrite app_nil_r.
  - rewrite IH. destruct (keys_of against !! Key ts) as [[]|] eqn:E.
    + rewrite filter_cons_False; [done|].
      intros Hn. apply Hn, keys_of_lookup. by rewrite E.
    + rewrite filter_cons_True by by apply keys_of_lookup_None.
      by rewrite <- app_assoc.
Qed.

Lemma coalesce_revert c r a :
  c_revert (coalesce c r a)
  = Some (survivors (c_revert c) a ++ survivors r (c_apply c)).
Proof.
  unfold coalesce; simpl. by rewrite !append_uncancelled_survivors.
Qed.

Lemma coalesce_apply c r a :
  c_apply (coalesce c r a)
  = Some (survivors (c_apply c) r ++ survivors a (c_revert c)).
Proof.
  unfold coalesce; simpl. by rewrite !append_uncancelled_survivors.
Qed.

Lemma has_key_survivors k s against :
  k ∈ Key <$> survivors s against ↔ has_key k s ∧ ¬ has_key k against.
Proof.
  unfold survivors. rewrite list_elem_of_fmap. split.
  - intros (ts & -> & Hts). apply list_elem_of_filter in Hts as [Hn Hin].
    split; [|exact Hn]. apply list_elem_of_fmap. eauto.
  - intros [Hin Hn]. apply list_elem_of_fmap in Hin as (ts & -> & Hin).
    exists ts. split; [done|]. apply list_elem_of_filter. by split.
Qed.

Lemma has_key_Some_app k (l1 l2 : list TipSet) :
  has_key k (Some (l1 ++ l2)) ↔ k ∈ Key <$> l1 ∨ k ∈ Key <$> l2.
Proof. unfold has_key; simpl. by rewrite fmap_app, elem_of_app. Qed.

(** When a key is in both sequences after a merge: it was in both pending
    sequences and in no incoming one, or in both incoming sequences and in
    no pending one. Every pair across the boundary has cancelled. *)
Lemma coalesce_shared_key c r a k :
  has_key k (c_revert (coalesce c r a)) ∧ has_key k (c_apply (coalesce c r a))
  ↔ (has_key k (c_revert c) ∧ has_key k (c_apply c)
     ∧ ¬ has_key k r ∧ ¬ has_key k a)
    ∨ (has_key k r ∧ has_key k a
       ∧ ¬ has_key k (c_revert c) ∧ ¬ has_key k (c_apply c)).
Proof.
  rewrite coalesce_revert, coalesce_apply, !has_key_Some_app,
    !has_key_survivors.
  tauto.
Qed.

(** Nothing is cancelled from a sequence none of whose keys is in the
    opposing one: it survives whole, repeated elements included. *)
Lemma survivors_all s against :
  (∀ ts, ts ∈ items s → ¬ has_key (Key ts) against) →
  survivors s against = items s.
Proof.
  unfold survivors. generalize (items s) as l.
  induction l as [|ts l IH]; intros Hall; [done|].
  rewrite filter_cons_True by (apply Hall; left).
  f_equal. apply IH. intros ts' Hin. apply Hall. by right.
Qed.

(** The survivors are a subsequence of their source: its order is kept. *)
Lemma survivors_sublist s against : survivors s against `sublist_of` items s.
Proof. apply sublist_filter. Qed.

(** C1. For a pending pair (R, A), the fields of the coalescer, and an
    incoming pair (r, a), [coalesce] leaves as the new revert sequence the
    elements of R whose key is not in a followed by the elements of r whose
    key is not in A, and as the new apply sequence the elements of A whose
    key is not in r followed by the elements of a whose key is not in R.
    Each group is a filter of its source, so the order of the source is kept
    and repeated elements stay; the pending group comes first. *)
Theorem coalesce_refines_merge c r a :
  c_revert (coalesce c r a)
  = Some (filter (λ ts, ¬ has_key (Key ts) a) (items (c_revert c))
          ++ filter (λ ts, ¬ has_key (Key ts) (c_apply c)) (items r))
  ∧ c_apply (coalesce c r a)
    = Some (filter (λ ts, ¬ has_key (Key ts) r) (items (c_apply c))
            ++ filter (λ ts, ¬ has_key (Key ts) (c_revert c)) (items a))
  ∧ (c_revert (coalesce c r a), c_apply (coalesce c r a))
    = (Some (merge (c_revert c) (c_apply c) r a).1,
       Some (merge (c_revert c) (c_apply c) r a).2).
Proof.
  rewrite coalesce_revert, coalesce_apply. unfold merge, survivors. done.
Qed.

(** C9. If the pending sequences share no key and the incoming sequences
    share no key, the sequences [coalesce] leaves share no key. *)
Theorem coalesce_preserves_key_disjoint c r a :
  key_disjoint (c_revert c) (c_apply c) →
  key_disjoint r a →
  key_disjoint (c_revert (coalesce c r a)) (c_apply (coalesce c r a)).
Proof.
  intros Hpend Hinc k Hboth.
  apply coalesce_shared_key in Hboth as [(HR & HA & _)|(Hr & Ha & _)].
  - exact (Hpend k (conj HR HA)).
  - exact (Hinc k (conj Hr Ha)).
Qed.
End MergeProperties.


(** * Properties of the dispatcher and of the loop *)

Section LoopProperties.
Context {TipSet TipSetKey W : Type}.
Context `{Countable TipSetKey} `{!HasKey TipSet TipSetKey}.
Variable delay : Z.
Implicit Types (m : machine TipSet W) (r a : slice TipSet).
Implicit Types (sched : list (Z * action TipSet)) (now : Z).

(** ** dispatch, field by field *)

Lemma dispatch_hcc now m :
  hcc (dispatch now m)
  = Coalescer (notify (hcc m)) (ctx_done (hcc m)) None None.
Proof. unfold dispatch. by destruct (notify _ _ _ _). Qed.

Lemma dispatch_calls now m :
  calls (dispatch now m)
  = calls m ++ [Call now (c_revert (hcc m)) (c_apply (hcc m))].
Proof. unfold dispatch. by destruct (notify _ _ _ _). Qed.

Lemma dispatch_timerC now m : timerC (dispatch now m) = timerC m.
Proof. unfold dispatch. by destruct (notify _ _ _ _). Qed.

Lemma dispatch_running now m : running (dispatch now m) = running m.
Proof. unfold dispatch. by destruct (notify _ _ _ _). Qed.

Lemma dispatch_consumer now m :
  consumer (dispatch now m)
  = (notify (hcc m) (c_revert (hcc m)) (c_apply (hcc m)) (consumer m)).2.
Proof. unfold dispatch. by destruct (notify _ _ _ _). Qed.

Lemma dispatch_logged now m :
  logged (dispatch now m)
  = logged m
    ++ match (notify (hcc m) (c_revert (hcc m)) (c_apply (hcc m))
                (consumer m)).1 with
       | Some e => [e]
       | None => []
       end.
Proof.
  unfold dispatch. destruct (notify _ _ _ _) as [[e|] w]; simpl; [done|].
  by rewrite app_nil_r.
Qed.

(** ** One action *)

Lemma run_nil m : run delay [] m = m.
Proof. done. Qed.

Lemma run_cons ta sched m :
  run delay (ta :: sched) m = run delay sched (exec delay m ta).
Proof. done. Qed.

Lemma run_app sched1 sched2 m :
  run delay (sched1 ++ sched2) m = run delay sched2 (run delay sched1 m).
Proof. unfold run. apply foldl_app. Qed.

(** What an action can do to the machine: nothing, merge an event, cancel
    the context, or one of the two dispatching branches of the loop. *)
Lemma exec_cases m ta :
  exec delay m ta = m
  ∨ (∃ r a, ta.2 = Submit r a ∧ ctx_done (hcc m) = false
            ∧ exec delay m ta = on_event delay ta.1 (HC r a) m)
  ∨ (ta.2 = Shutdown ∧ ctx_done (hcc m) = false
     ∧ exec delay m ta = (Close m).2)
  ∨ (ta.2 = Expire ∧ ready ta.1 RecvTimer m = true
     ∧ exec delay m ta = on_timer ta.1 m)
  ∨ (ta.2 = Observe ∧ ready ta.1 RecvDone m = true
     ∧ exec delay m ta = on_done ta.1 m).
Proof.
  destruct ta as [now [r a| | |]]; unfold exec, HeadChange, Close,
    background_iter; simpl.
  - destruct (ctx_done (hcc m)) eqn:E; [by left|]. right; left. eauto.
  - destruct (ctx_done (hcc m)) eqn:E; [by left|]. right; right; left. eauto.
  - destruct (ready now RecvTimer m) eqn:E; [|by left].
    right; right; right; left. eauto.
  - destruct (ready now RecvDone m) eqn:E; [|by left].
    right; right; right; right. eauto.
Qed.

(** The invocations of the callback only grow. *)
Lemma calls_on_done now m :
  calls (on_done now m)
  = calls m
    ++ (if non_nil (c_revert (hcc m)) || non_nil (c_apply (hcc m))
        then [Call now (c_revert (hcc m)) (c_apply (hcc m))] else []).
Proof.
  unfold on_done; simpl. destruct (_ || _); simpl.
  - apply dispatch_calls.
  - by rewrite app_nil_r.
Qed.

Lemma calls_on_timer now m :
  calls (on_timer now m)
  = calls m ++ [Call now (c_revert (hcc m)) (c_apply (hcc m))].
Proof. unfold on_timer; simpl. apply dispatch_calls. Qed.

Lemma calls_exec m ta : ∃ more, calls (exec delay m ta) = calls m ++ more.
Proof.
  destruct (exec_cases m ta)
    as [->|[(r & a & _ & _ & ->)|[(_ & _ & ->)|[(_ & _ & ->)|(_ & _ & ->)]]]].
  - exists []. by rewrite app_nil_r.
  - exists []. by rewrite app_nil_r.
  - exists []. unfold Close; simpl. destruct (ctx_done _); by rewrite app_nil_r.
  - eexists. apply calls_on_timer.
  - eexists. apply calls_on_done.
Qed.

Lemma calls_run sched m : ∃ more, calls (run delay sched m) = calls m ++ more.
Proof.
  revert m. induction sched as [|ta sched IH]; intros m.
  - exists []. by rewrite app_nil_r.
  - rewrite run_cons. destruct (IH (exec delay m ta)) as [more2 ->].
    destruct (calls_exec m ta) as [more1 ->].
    exists (more1 ++ more2). by rewrite app_assoc.
Qed.

(** A cancelled context stays cancelled. *)
Lemma ctx_done_exec m ta :
  ctx_done (hcc m) = true → ctx_done (hcc (exec delay m ta)) = true.
Proof.
  intros Hd.
  destruct (exec_cases m ta)
    as [->|[(r & a & _ & Hl & _)|[(_ & Hl & _)|[(_ & _ & ->)|(_ & _ & ->)]]]];
    try done; try congruence.
  - unfold on_timer; simpl. by rewrite dispatch_hcc.
  - unfold on_done; simpl. destruct (_ || _); [|done].
    by rewrite dispatch_hcc.
Qed.

Lemma ctx_done_run sched m :
  ctx_done (hcc m) = true → ctx_done (hcc (run delay sched m)) = true.
Proof.
  revert m. induction sched as [|ta sched IH]; intros m Hd; [done|].
  rewrite run_cons. by apply IH, ctx_done_exec.
Qed.

Lemma ctx_done_Close m : ctx_done (hcc (Close m).2) = true.
Proof. unfold Close; simpl. by destruct (ctx_done (hcc m)) eqn:E. Qed.

(** Once [background] has returned on a cancelled context, nothing moves. *)
Lemma exec_stopped m ta :
  running m = false → ctx_done (hcc m) = true → exec delay m ta = m.
Proof.
  intros Hr Hd. destruct ta as [now [r a| | |]];
    unfold exec, HeadChange, Close, background_iter, ready; simpl;
    by rewrite ?Hr, ?Hd.
Qed.

Lemma run_stopped sched m :
  running m = false → ctx_done (hcc m) = true → run delay sched m = m.
Proof.
  intros Hr Hd. induction sched as [|ta sched IH]; [done|].
  by rewrite run_cons, exec_stopped.
Qed.
(** ** After the last dispatch of a closed coalescer *)

Lemma drained_exec m ta :
  drained m →
  drained (exec delay m ta)
  ∧ calls (exec delay m ta) = calls m
  ∧ (running m = false ∨ ta.2 = Observe → running (exec delay m ta) = false).
Proof.
  intros (Hd & [HR HA] & Ht).
  destruct (exec_cases m ta)
    as [E|[(r & a & _ & Hl & _)|[(_ & Hl & _)|[(_ & Hrdy & _)|(Ho & Hrdy & ->)]]]];
    try congruence.
  - split; [by rewrite E|]. split; [by rewrite E|].
    intros [Hr|Ho]; [by rewrite E|].
    destruct (running m) eqn:Hr; [|by rewrite E].
    destruct ta as [now act]; simpl in Ho; subst act.
    unfold exec, background_iter, ready; simpl. by rewrite Hr, Hd.
  - unfold ready in Hrdy. destruct (running m); [|done].
    by rewrite Ht in Hrdy.
  - unfold on_done. rewrite HR, HA; simpl. by repeat split.
Qed.

Lemma drained_run sched m :
  drained m →
  calls (run delay sched m) = calls m
  ∧ (running m = false ∨ Observe ∈ sched.*2
     → running (run delay sched m) = false).
Proof.
  revert m. induction sched as [|ta sched IH]; intros m Hdr.
  - split; [done|]. intros [Hr|Ho]; [done|]. by apply elem_of_nil in Ho.
  - rewrite run_cons. destruct (drained_exec m ta Hdr) as (Hdr' & Hc & Hs).
    destruct (IH _ Hdr') as [Hc' Hs']. split; [congruence|].
    intros Hcase. apply Hs'. rewrite fmap_cons, elem_of_cons in Hcase.
    destruct Hcase as [Hr|[Ho|Hin]]; auto.
Qed.

(** ** Timers are armed by events only *)

Lemma timer_has_cause_exec m ta :
  timer_has_cause m → timer_has_cause (exec delay m ta).
Proof.
  intros Hm.
  destruct (exec_cases m ta)
    as [->|[(r & a & _ & _ & ->)|[(_ & Hl & ->)|[(_ & _ & ->)|(_ & _ & ->)]]]].
  - exact Hm.
  - intros _ _. done.
  - unfold Close; simpl. by rewrite Hl.
  - intros _ Hsome. simpl in Hsome. by destruct Hsome.
  - intros Hr. done.
Qed.

Lemma timer_has_cause_run sched m :
  timer_has_cause m → timer_has_cause (run delay sched m).
Proof.
  revert m. induction sched as [|ta sched IH]; intros m Hm; [done|].
  rewrite run_cons. by apply IH, timer_has_cause_exec.
Qed.

Lemma timer_has_cause_New (fn : ReorgNotifee TipSet W) (w : W) :
  timer_has_cause (NewHeadChangeCoalescer fn w).
Proof. intros _ Hsome. simpl in Hsome. by destruct Hsome. Qed.

Lemma drained_Close m :
  timer_has_cause m → pending_nil m → drained (Close m).2.
Proof.
  intros Hm [HR HA]. split; [apply ctx_done_Close|].
  unfold Close; simpl. destruct (ctx_done (hcc m)) eqn:Hd; simpl.
  - split; [done|]. intros Hr. destruct (timerC m) eqn:Ht; [|done].
    destruct (Hm Hr) as [Hn _]; [by rewrite Ht|]. by rewrite HR in Hn.
  - split; [done|]. intros Hr. destruct (timerC m) eqn:Ht; [|done].
    destruct (Hm Hr) as [Hn _]; [by rewrite Ht|]. by rewrite HR in Hn.
Qed.

(** ** The loop returns on a cancelled context only *)

Lemma returns_on_cancel_exec m ta :
  returns_on_cancel m → returns_on_cancel (exec delay m ta).
Proof.
  intros Hm.
  destruct (exec_cases m ta)
    as [->|[(r & a & _ & _ & ->)|[(_ & Hl & ->)|[(_ & _ & ->)|(_ & Hrdy & ->)]]]].
  - exact Hm.
  - intros Hr. simpl in Hr. apply Hm in Hr. done.
  - intros _. apply ctx_done_Close.
  - intros Hr. simpl in Hr. rewrite dispatch_running in Hr.
    unfold on_timer; simpl. rewrite dispatch_hcc; simpl. by apply Hm.
  - intros _. unfold ready in Hrdy. apply andb_true_iff in Hrdy as [_ Hd].
    unfold on_done; simpl. destruct (_ || _); [|done].
    by rewrite dispatch_hcc.
Qed.

Lemma returns_on_cancel_run sched m :
  returns_on_cancel m → returns_on_cancel (run delay sched m).
Proof.
  revert m. induction sched as [|ta sched IH]; intros m Hm; [done|].
  rewrite run_cons. by apply IH, returns_on_cancel_exec.
Qed.

(** While the context is live the loop is there to receive: a call of
    [HeadChange] is the event branch of the loop, and returns nil. *)
Lemma HeadChange_live (fn : ReorgNotifee TipSet W) (w : W) sched now r a :
  ctx_done (hcc (run delay sched (NewHeadChangeCoalescer fn w))) = false →
  background_iter delay now (RecvEvent (HC r a))
    (run delay sched (NewHeadChangeCoalescer fn w))
  = Some (HeadChange delay now r a
            (run delay sched (NewHeadChangeCoalescer fn w))).2
  ∧ (HeadChange delay now r a
       (run delay sched (NewHeadChangeCoalescer fn w))).1 = None.
Proof.
  intros Hl. set (m := run delay sched _) in *.
  assert (Hr : running m = true).
  { destruct (running m) eqn:Hr; [done|].
    assert (Hinv : returns_on_cancel m)
      by (apply returns_on_cancel_run; intros ?; done).
    apply Hinv in Hr. congruence. }
  unfold background_iter, ready, HeadChange. by rewrite Hr, Hl.
Qed.

(** ** Shutdown *)

Lemma on_timer_drained now m :
  ctx_done (hcc m) = true → drained (on_timer now m).
Proof.
  intros Hd. unfold on_timer, drained, pending_nil; simpl.
  by rewrite dispatch_hcc.
Qed.

(** With the context cancelled and something pending, the next branch of the
    loop that can run dispatches the pending pair, and it is the last
    dispatch: the timer branch leaves nothing for the shutdown branch, and
    the shutdown branch returns. *)
Lemma flush_once sched m :
  ctx_done (hcc m) = true →
  running m = true →
  non_nil (c_revert (hcc m)) || non_nil (c_apply (hcc m)) = true →
  Observe ∈ sched.*2 →
  ∃ t, calls (run delay sched m)
       = calls m ++ [Call t (c_revert (hcc m)) (c_apply (hcc m))]
       ∧ running (run delay sched m) = false.
Proof.
  intros Hd Hr Hn. induction sched as [|[t act] sched IH]; intros Hin.
  - by apply elem_of_nil in Hin.
  - rewrite fmap_cons, elem_of_cons in Hin. rewrite run_cons.
    destruct act as [r a| | |]; unfold exec; simpl.
    + unfold HeadChange. rewrite Hd; simpl.
      destruct Hin as [?|Hin]; [done|]. by apply IH.
    + unfold Close. rewrite Hd; simpl.
      destruct Hin as [?|Hin]; [done|]. by apply IH.
    + destruct Hin as [?|Hin]; [done|].
      unfold background_iter. destruct (ready t RecvTimer m); simpl.
      * destruct (drained_run sched (on_timer t m)) as [Hc Hs];
          [by apply on_timer_drained|].
        exists t. rewrite Hc, Hs by auto. by rewrite calls_on_timer.
      * by apply IH.
    + unfold background_iter, ready. rewrite Hr, Hd; simpl.
      rewrite run_stopped.
      * exists t. by rewrite calls_on_done, Hn.
      * done.
      * unfold on_done; simpl. rewrite Hn. by rewrite dispatch_hcc.
Qed.

(** C3. Pending State holds a tipset when [Close] is called on a coalescer
    whose loop runs. Then, in every continuation in which the loop gets to
    observe the cancelled context, the callback is invoked exactly once
    more, with exactly the revert and apply sequences that were pending,
    and the loop has returned; whatever is scheduled after that adds no
    invocation. *)
Theorem flush_on_close m sched :
  running m = true →
  ¬ pending_empty m →
  Observe ∈ sched.*2 →
  ∃ t, calls (run delay sched (Close m).2)
       = calls m ++ [Call t (c_revert (hcc m)) (c_apply (hcc m))]
       ∧ running (run delay sched (Close m).2) = false
       ∧ ∀ later, calls (run delay (sched ++ later) (Close m).2)
                  = calls (run delay sched (Close m).2).
Proof.
  intros Hr Hne Hin.
  assert (Hn : non_nil (c_revert (hcc m)) || non_nil (c_apply (hcc m)) = true).
  { destruct (c_revert (hcc m)) eqn:ER; [done|].
    destruct (c_apply (hcc m)) eqn:EA; [done|].
    destruct Hne. unfold pending_empty. by rewrite ER, EA. }
  assert (Hsame : hcc (Close m).2
                  = Coalescer (notify (hcc m)) true (c_revert (hcc m))
                      (c_apply (hcc m))
                  ∧ running (Close m).2 = true ∧ calls (Close m).2 = calls m).
  { unfold Close; simpl. destruct (ctx_done (hcc m)) eqn:Hd; [|done].
    split; [|done]. destruct (hcc m); simpl in *. by subst. }
  destruct Hsame as (Hc & Hr' & Hcalls).
  destruct (flush_once sched (Close m).2) as (t & Hflush & Hstop); try done.
  - apply ctx_done_Close.
  - by rewrite Hc.
  - exists t. split; [by rewrite Hflush, Hc, Hcalls|]. split; [done|].
    intros later. rewrite run_app, (run_stopped later); [done..|].
    apply ctx_done_run, ctx_done_Close.
Qed.

(** C4, as the code has it. Pending State is nil, nothing having been merged
    since the coalescer was made or since its last dispatch, when [Close]
    is called on a coalescer in any state it can reach. Then the callback
    is not invoked again, whatever follows, and the loop terminates without
    a final dispatch: in every continuation in which it gets to observe the
    cancelled context, [background] has returned. *)
Theorem no_flush_on_close_when_nil (fn : ReorgNotifee TipSet W) (w : W)
    before sched :
  pending_nil (run delay before (NewHeadChangeCoalescer fn w)) →
  calls (run delay sched
           (Close (run delay before (NewHeadChangeCoalescer fn w))).2)
  = calls (run delay before (NewHeadChangeCoalescer fn w))
  ∧ (Observe ∈ sched.*2 →
     running (run delay sched
                (Close (run delay before (NewHeadChangeCoalescer fn w))).2)
     = false).
Proof.
  intros Hnil. set (m := run delay before _) in *.
  destruct (drained_run sched (Close m).2) as [Hc Hs].
  - apply drained_Close; [|done].
    apply timer_has_cause_run, timer_has_cause_New.
  - split; [|by intros Hin; apply Hs; right].
    rewrite Hc. unfold Close; simpl. by destruct (ctx_done (hcc m)).
Qed.

(** C5. After [Close] has returned, and whatever has happened since, a call
    of [HeadChange] returns the error of the cancelled context and leaves
    the machine as it was: Pending State is not touched, and everything that
    follows, every invocation of the callback included, is what it would
    have been without the call. *)
Theorem post_close_rejection m since now r a :
  HeadChange delay now r a (run delay since (Close m).2)
  = (Some Canceled, run delay since (Close m).2)
  ∧ ∀ later,
      run delay (since ++ (now, Submit r a) :: later) (Close m).2
      = run delay (since ++ later) (Close m).2.
Proof.
  assert (E : HeadChange delay now r a (run delay since (Close m).2)
              = (Some Canceled, run delay since (Close m).2)).
  { unfold HeadChange at 1.
    by rewrite (ctx_done_run since _ (ctx_done_Close m)). }
  split; [exact E|]. intros later.
  rewrite !run_app, run_cons. f_equal. unfold exec. cbn [fst snd].
  by rewrite E.
Qed.

(** The context is cancelled by [Close] and by nothing else; what the
    callback returns has no part in it. *)
Lemma ctx_done_exec_eq m ta :
  ctx_done (hcc (exec delay m ta))
  = ctx_done (hcc m) || match ta.2 with Shutdown => true | _ => false end.
Proof.
  destruct ta as [t [r a| | |]];
    unfold exec, HeadChange, Close, background_iter; simpl.
  - destruct (ctx_done (hcc m)) eqn:E; simpl; [by rewrite E|done].
  - destruct (ctx_done (hcc m)) eqn:E; simpl; [by rewrite E|done].
  - rewrite orb_false_r. destruct (ready t RecvTimer m); simpl; [|done].
    unfold on_timer; simpl. by rewrite dispatch_hcc.
  - rewrite orb_false_r. destruct (ready t RecvDone m); simpl; [|done].
    unfold on_done; simpl. destruct (_ || _); [|done].
    by rewrite dispatch_hcc.
Qed.

Lemma ctx_done_run_eq sched m :
  ctx_done (hcc (run delay sched m)) = ctx_done (hcc m) || shuts_down sched.
Proof.
  revert m. induction sched as [|ta sched IH]; intros m.
  - simpl. by rewrite orb_false_r.
  - rewrite run_cons, IH, ctx_done_exec_eq. unfold shuts_down; simpl.
    by rewrite orb_assoc.
Qed.

(** C6. A dispatch invokes the callback once and never again for the same
    batch; what the callback returns goes to the log when it is an error
    and nowhere else. Whatever it returns, Pending State is nil afterwards,
    the state that steers the loop (is it running, its timer, its context)
    is what it was, so the timer branch leaves a running loop ready for the
    next event, and a later [HeadChange] returns nil or the error of the
    cancelled context, independently of the callback: for every callback
    and every schedule, what a call of [HeadChange] returns is decided by
    whether [Close] has been called. *)
Theorem dispatch_swallows_callback_error now m :
  calls (dispatch now m)
  = calls m ++ [Call now (c_revert (hcc m)) (c_apply (hcc m))]
  ∧ logged (dispatch now m)
    = logged m
      ++ match (notify (hcc m) (c_revert (hcc m)) (c_apply (hcc m))
                  (consumer m)).1 with
         | Some e => [e]
         | None => []
         end
  ∧ pending_nil (dispatch now m)
  ∧ running (dispatch now m) = running m
  ∧ timerC (dispatch now m) = timerC m
  ∧ ctx_done (hcc (dispatch now m)) = ctx_done (hcc m)
  ∧ running (on_timer now m) = running m
  ∧ (∀ now' evt, ready now' (RecvEvent evt) (on_timer now m) = running m)
  ∧ (∀ now' r a,
       (HeadChange delay now' r a (dispatch now m)).1
       = if ctx_done (hcc m) then Some Canceled else None)
  ∧ ∀ (fn : ReorgNotifee TipSet W) (w : W) sched now' r a,
      (HeadChange delay now' r a
         (run delay sched (NewHeadChangeCoalescer fn w))).1
      = if shuts_down sched then Some Canceled else None.
Proof.
  rewrite dispatch_calls, dispatch_logged, dispatch_running, dispatch_timerC.
  unfold pending_nil, on_timer, ready; simpl.
  rewrite dispatch_hcc, dispatch_running; simpl.
  repeat split; try done.
  - intros. by destruct (running m).
  - intros. unfold HeadChange. rewrite dispatch_hcc; simpl.
    by destruct (ctx_done (hcc m)).
  - intros. unfold HeadChange. rewrite ctx_done_run_eq; simpl.
    by destruct (shuts_down sched).
Qed.

(** ** The invariant of Pending State *)

Lemma key_disjoint_nil_l (s : slice TipSet) : key_disjoint None s.
Proof. intros k [Hk _]. unfold has_key in Hk. by apply elem_of_nil in Hk. Qed.

Lemma key_disjoint_exec m ta :
  consistent ta.2 →
  key_disjoint (c_revert (hcc m)) (c_apply (hcc m)) →
  key_disjoint (c_revert (hcc (exec delay m ta)))
               (c_apply (hcc (exec delay m ta))).
Proof.
  intros Hta Hm.
  destruct (exec_cases m ta)
    as [->|[(r & a & E & _ & ->)|[(_ & Hl & ->)|[(_ & _ & ->)|(_ & _ & ->)]]]].
  - exact Hm.
  - rewrite E in Hta. unfold on_event; simpl. intros k Hboth.
    apply coalesce_shared_key in Hboth as [(HR & HA & _)|(Hr & Ha & _)].
    + exact (Hm k (conj HR HA)).
    + exact (Hta k (conj Hr Ha)).
  - unfold Close; simpl. by rewrite Hl.
  - unfold on_timer; simpl. rewrite dispatch_hcc. apply key_disjoint_nil_l.
  - unfold on_done; simpl. destruct (_ || _); [|exact Hm].
    rewrite dispatch_hcc. apply key_disjoint_nil_l.
Qed.

(** C2, as the code has it. As long as no submitted event has a key in both
    its revert and its apply sequence, no key is in both pending sequences,
    after any merge and in every state a coalescer reaches. *)
Theorem pending_stays_key_disjoint (fn : ReorgNotifee TipSet W) (w : W) sched :
  Forall (λ ta, consistent ta.2) sched →
  key_disjoint
    (c_revert (hcc (run delay sched (NewHeadChangeCoalescer fn w))))
    (c_apply (hcc (run delay sched (NewHeadChangeCoalescer fn w)))).
Proof.
  intros Hall.
  assert (G : ∀ m, key_disjoint (c_revert (hcc m)) (c_apply (hcc m)) →
                   key_disjoint (c_revert (hcc (run delay sched m)))
                                (c_apply (hcc (run delay sched m)))).
  { induction Hall as [|ta sched Hta _ IH]; intros m Hm; [done|].
    rewrite run_cons. by apply IH, key_disjoint_exec. }
  apply G. apply key_disjoint_nil_l.
Qed.

(** ** The timer *)

(** The event branch arms a timer when none is armed, and leaves an armed
    one as it is. *)
Lemma on_event_timerC now evt m :
  timerC (on_event delay now evt m)
  = match timerC m with
    | None => Some (now + delay)
    | Some d => Some d
    end.
Proof. done. Qed.

(** No action but a submission arms a timer. *)
Lemma timer_armed_by_submit m ta :
  timerC m = None → is_Some (timerC (exec delay m ta)) →
  ∃ r a, ta.2 = Submit r a.
Proof.
  intros Hn Hs.
  destruct (exec_cases m ta)
    as [E|[(r & a & E & _)|[(_ & Hl & E)|[(_ & _ & E)|(_ & _ & E)]]]];
    [| by eauto | | |]; rewrite E in Hs; exfalso.
  - rewrite Hn in Hs. by destruct Hs.
  - unfold Close in Hs; simpl in Hs. rewrite Hl in Hs; simpl in Hs.
    rewrite Hn in Hs. by destruct Hs.
  - simpl in Hs. by destruct Hs.
  - unfold on_done in Hs; simpl in Hs. destruct (_ || _) in Hs.
    + rewrite dispatch_timerC, Hn in Hs. by destruct Hs.
    + rewrite Hn in Hs. by destruct Hs.
Qed.

(** With a timer armed for [d] and something pending, a punctual schedule
    that reaches beyond [d] has dispatched by [d]. *)
Lemma dispatch_by_deadline t0 d sched m :
  running m = true →
  timerC m = Some d →
  non_nil (c_revert (hcc m)) = true →
  punctual delay sched m = true →
  Forall (λ ta, t0 ≤ ta.1) sched →
  Exists (λ ta, d < ta.1) sched →
  ∃ cl more,
    calls (run delay sched m) = calls m ++ cl :: more
    ∧ t0 ≤ call_time cl ≤ d.
Proof.
  intros Hr Ht Hn Hp Hall Hex. revert m Hr Ht Hn Hp Hex.
  induction Hall as [|[t act] sched Ht0 _ IH]; intros m Hr Ht Hn Hp Hex.
  - by apply Exists_nil in Hex.
  - simpl in Ht0. cbn [punctual] in Hp. apply andb_true_iff in Hp as [Hov Hp].
    unfold overdue in Hov. rewrite Hr, Ht in Hov; simpl in Hov.
    apply negb_true_iff, bool_decide_eq_false in Hov.
    apply Exists_cons in Hex as [Hex|Hex]; [simpl in Hex; lia|].
    rewrite run_cons.
    assert (Hdisp : ∀ m', calls m' = calls m ++ [Call t (c_revert (hcc m))
                                                   (c_apply (hcc m))] →
              ∃ cl more, calls (run delay sched m') = calls m ++ cl :: more
                         ∧ t0 ≤ call_time cl ≤ d).
    { intros m' Hc. destruct (calls_run sched m') as [more ->].
      rewrite Hc, <- app_assoc. eexists _, more. split; [done|]. simpl. lia. }
    destruct (exec_cases m (t, act))
      as [E|[(r & a & _ & _ & E)|[(_ & Hl & E)|[(_ & _ & E)|(_ & Hrdy & E)]]]];
      rewrite E in *.
    + by apply IH.
    + by apply (IH (on_event delay t (HC r a) m)); simpl; rewrite ?Ht.
    + unfold Close; simpl. rewrite Hl.
      apply (IH (Machine _ _ _ _ _ _)); simpl; try done.
      unfold Close in Hp; simpl in Hp. by rewrite Hl in Hp.
    + apply Hdisp, calls_on_timer.
    + apply Hdisp. by rewrite calls_on_done, Hn.
Qed.

(** C8. A submission received while a timer is armed leaves the timer as it
    is; a timer is armed only by a submission received with none armed, for
    [delay] after that submission. So in every punctual schedule that begins
    with a submission at [t0] received with no timer armed and that goes on,
    with submissions or anything else, beyond [t0 + delay], a dispatch has
    occurred between [t0] and [t0 + delay]. *)
Theorem window_is_not_sliding m t0 r a rest :
  running m = true →
  ctx_done (hcc m) = false →
  timerC m = None →
  punctual delay ((t0, Submit r a) :: rest) m = true →
  Forall (λ ta, t0 ≤ ta.1) rest →
  Exists (λ ta, t0 + delay < ta.1) rest →
  (∀ now evt m' d,
     timerC m' = Some d → timerC (on_event delay now evt m') = Some d)
  ∧ (∀ m' ta, timerC m' = None → is_Some (timerC (exec delay m' ta)) →
              ∃ r' a', ta.2 = Submit r' a')
  ∧ timerC (exec delay m (t0, Submit r a)) = Some (t0 + delay)
  ∧ ∃ cl more,
      calls (run delay ((t0, Submit r a) :: rest) m) = calls m ++ cl :: more
      ∧ t0 ≤ call_time cl ≤ t0 + delay.
Proof.
  intros Hr Hl Ht Hp Hall Hex.
  assert (E : exec delay m (t0, Submit r a) = on_event delay t0 (HC r a) m).
  { unfold exec, HeadChange; simpl. by rewrite Hl. }
  split; [intros now evt m' d Hd; by rewrite on_event_timerC, Hd|].
  split; [exact timer_armed_by_submit|].
  split; [by rewrite E, on_event_timerC, Ht|].
  rewrite run_cons. cbn [punctual] in Hp. apply andb_true_iff in Hp as [_ Hp].
  rewrite E in *.
  apply (dispatch_by_deadline t0 (t0 + delay) rest (on_event delay t0 (HC r a) m));
    simpl; try done.
  by rewrite Ht.
Qed.

(** ** Bursts *)

Lemma coalesce_eq (c : HeadChangeCoalescer TipSet W) r a :
  coalesce c r a
  = Coalescer (notify c) (ctx_done c)
      (Some (survivors (c_revert c) a ++ survivors r (c_apply c)))
      (Some (survivors (c_apply c) r ++ survivors a (c_revert c))).
Proof.
  pose proof (coalesce_revert c r a) as HR.
  pose proof (coalesce_apply c r a) as HA.
  unfold coalesce in *; simpl in *. congruence.
Qed.

Lemma net_effect_ctx_done (c : HeadChangeCoalescer TipSet W) evts :
  ctx_done (net_effect c evts) = ctx_done c.
Proof.
  revert c. induction evts as [|evt evts IH]; intros c; [done|].
  unfold net_effect in *; simpl. by rewrite IH.
Qed.

(** A burst received by a live coalescer: every event is merged, in order;
    the timer is the one that was armed, or else the one the first event of
    the burst arms; nothing is dispatched. *)
Lemma run_submissions burst m :
  ctx_done (hcc m) = false →
  run delay (submissions burst) m
  = Machine (net_effect (hcc m) burst.*2)
      (match timerC m, burst with
       | Some d, _ => Some d
       | None, te :: _ => Some (te.1 + delay)
       | None, [] => None
       end)
      (running m) (consumer m) (calls m) (logged m).
Proof.
  revert m. induction burst as [|[t evt] burst IH]; intros m Hl.
  - destruct m as [c tm rn w cs lg]; simpl. by destruct tm.
  - unfold submissions. rewrite fmap_cons, run_cons.
    fold (submissions burst). unfold exec, HeadChange; simpl. rewrite Hl.
    rewrite IH by done. simpl. destruct evt as [r a]; simpl.
    f_equal. by destruct (timerC m), burst.
Qed.

Lemma punctual_app sched1 sched2 m :
  punctual delay (sched1 ++ sched2) m
  = punctual delay sched1 m && punctual delay sched2 (run delay sched1 m).
Proof.
  revert m. induction sched1 as [|ta sched1 IH]; intros m; [done|].
  rewrite <- app_comm_cons. cbn [punctual]. rewrite IH, run_cons.
  by rewrite andb_assoc.
Qed.

(** Submissions that arrive by the deadline of the armed timer are on time. *)
Lemma punctual_submissions d burst m :
  ctx_done (hcc m) = false →
  timerC m = Some d →
  Forall (λ te, te.1 ≤ d) burst →
  punctual delay (submissions burst) m = true.
Proof.
  intros Hl Ht Hall. revert m Hl Ht.
  induction Hall as [|[t evt] burst Hle _ IH]; intros m Hl Ht; [done|].
  unfold submissions. rewrite fmap_cons. fold (submissions burst).
  cbn [punctual]. apply andb_true_iff. split.
  - unfold overdue. rewrite Ht; simpl in *.
    rewrite bool_decide_eq_false_2 by lia. by rewrite andb_false_r.
  - apply IH.
    + unfold exec, HeadChange; simpl. by rewrite Hl.
    + unfold exec, HeadChange; simpl. rewrite Hl; simpl. by rewrite Ht.
Qed.

(** C7, as the code has it. A burst all of whose submissions arrive strictly
    less than [delay] after its first one, received by an idle coalescer,
    is dispatched exactly once, when the timer armed by the first submission
    fires: the callback receives the net effect of all the submissions of
    the burst merged in order, and the coalescer is idle again. *)
Theorem burst_within_window_dispatched_once m t0 evt rest :
  idle m →
  Forall (λ te, te.1 < t0 + delay) rest →
  punctual delay
    (submissions ((t0, evt) :: rest) ++ [(t0 + delay, Expire)]) m = true
  ∧ calls (run delay
             (submissions ((t0, evt) :: rest) ++ [(t0 + delay, Expire)]) m)
    = calls m
      ++ [Call (t0 + delay)
            (c_revert (net_effect (hcc m) (evt :: rest.*2)))
            (c_apply (net_effect (hcc m) (evt :: rest.*2)))]
  ∧ idle (run delay
            (submissions ((t0, evt) :: rest) ++ [(t0 + delay, Expire)]) m).
Proof.
  intros (Hr & Hl & Ht & HR & HA) Hall.
  assert (Hrun := run_submissions ((t0, evt) :: rest) m Hl).
  rewrite Ht in Hrun. cbn [fst] in Hrun.
  split; [|rewrite run_app, Hrun; clear Hrun].
  - rewrite punctual_app, Hrun. apply andb_true_iff. split.
    + unfold submissions. rewrite fmap_cons. fold (submissions rest).
      cbn [punctual]. apply andb_true_iff. split.
      * unfold overdue. by rewrite Ht, andb_false_r.
      * apply (punctual_submissions (t0 + delay)).
        -- unfold exec, HeadChange; simpl. by rewrite Hl.
        -- unfold exec, HeadChange; simpl. rewrite Hl; simpl. by rewrite Ht.
        -- eapply Forall_impl; [exact Hall|]. simpl. lia.
    + cbn [punctual]. unfold overdue; simpl.
      rewrite bool_decide_eq_false_2 by lia. by rewrite andb_false_r.
  - rewrite fmap_cons. cbn [snd].
    set (net := net_effect (hcc m) (evt :: rest.*2)).
    assert (Hrdy : ready (t0 + delay) RecvTimer
                     (Machine net (Some (t0 + delay)) (running m)
                        (consumer m) (calls m) (logged m)) = true).
    { unfold ready; simpl. rewrite Hr; simpl. by apply bool_decide_eq_true_2. }
    rewrite run_cons, run_nil. unfold exec; cbn [fst snd].
    unfold background_iter. rewrite Hrdy; simpl.
    split; [by rewrite dispatch_calls|].
    unfold idle, pending_nil; simpl.
    rewrite dispatch_running, dispatch_hcc; simpl.
    subst net. by rewrite net_effect_ctx_done.
Qed.

(** An element whose key is in the opposing sequence does not survive. *)
Lemma survivors_cancelled (ts : TipSet) :
  survivors (Some [ts]) (Some [ts]) = [].
Proof.
  unfold survivors; simpl. rewrite filter_cons_False; [done|].
  intros Hn. apply Hn. unfold has_key; simpl. apply list_elem_of_here.
Qed.

Lemma survivors_against_nothing (s against : slice TipSet) :
  items against = [] → survivors s against = items s.
Proof.
  intros E. apply survivors_all. intros ts _ Hk.
  unfold has_key in Hk. rewrite E in Hk. by apply elem_of_nil in Hk.
Qed.

Lemma survivors_of_nothing (s against : slice TipSet) :
  items s = [] → survivors s against = [].
Proof. unfold survivors. by intros ->. Qed.

(** C10. [coalesce] leaves both pending sequences non-nil, even when they
    have no element. So when an idle coalescer receives the application of
    a tipset and then, within the window, its reversal, the two cancel, and
    still the callback is invoked once with two sequences without elements:
    by the timer branch when the timer fires, and by the shutdown branch
    when the coalescer is closed first. *)
Theorem cancelled_burst_still_dispatched m (T1 : TipSet) t0 t1 t2 :
  idle m →
  t1 < t0 + delay →
  (∀ (c : HeadChangeCoalescer TipSet W) r a,
     non_nil (c_revert (coalesce c r a)) = true
     ∧ non_nil (c_apply (coalesce c r a)) = true)
  ∧ pending_empty
      (run delay [(t0, Submit None (Some [T1]));
                  (t1, Submit (Some [T1]) None)] m)
  ∧ punctual delay [(t0, Submit None (Some [T1]));
                    (t1, Submit (Some [T1]) None);
                    (t0 + delay, Expire)] m = true
  ∧ calls (run delay [(t0, Submit None (Some [T1]));
                      (t1, Submit (Some [T1]) None);
                      (t0 + delay, Expire)] m)
    = calls m ++ [Call (t0 + delay) (Some []) (Some [])]
  ∧ calls (run delay [(t0, Submit None (Some [T1]));
                      (t1, Submit (Some [T1]) None);
                      (t1, Shutdown);
                      (t2, Observe)] m)
    = calls m ++ [Call t2 (Some []) (Some [])].
Proof.
  intros (Hr & Hl & Ht & HR & HA) Hlt.
  split; [intros c r a; by rewrite coalesce_revert, coalesce_apply|].
  assert (E1 : exec delay m (t0, Submit None (Some [T1]))
               = Machine (Coalescer (notify (hcc m)) false (Some [])
                            (Some [T1]))
                   (Some (t0 + delay)) true (consumer m) (calls m) (logged m)).
  { unfold exec, HeadChange; simpl. rewrite Hl. unfold on_event; simpl.
    rewrite coalesce_eq, HR, HA, Hl, Ht, Hr.
    rewrite !(survivors_of_nothing None) by done.
    by rewrite (survivors_against_nothing _ None). }
  assert (E2 : ∀ c, exec delay
                 (Machine (Coalescer (notify (hcc m)) false (Some [])
                             (Some [T1]))
                    (Some (t0 + delay)) true (consumer m) (calls m) (logged m))
                 (t1, Submit (Some [T1]) None) = c →
               c = Machine (Coalescer (notify (hcc m)) false (Some [])
                              (Some []))
                     (Some (t0 + delay)) true (consumer m) (calls m)
                     (logged m)).
  { intros c <-. unfold exec, HeadChange, on_event; simpl.
    rewrite coalesce_eq; simpl.
    by rewrite survivors_cancelled, (survivors_of_nothing None). }
  specialize (E2 _ eq_refl).
  split; [by rewrite !run_cons, E1, E2|].
  split.
  - cbn [punctual]. rewrite E1, E2. unfold overdue; simpl.
    rewrite Hr, Ht; simpl.
    rewrite !bool_decide_eq_false_2 by lia. done.
  - rewrite !run_cons, E1, E2, !run_nil.
    unfold exec, Close, background_iter, ready; simpl.
    rewrite bool_decide_eq_true_2 by lia; simpl.
    by rewrite !dispatch_calls.
Qed.

End LoopProperties.

(** * Examples on sample data *)

Section Examples.
Import Sample.

(** The two examples of section 8 of the specification. *)
Example merge_full_cancellation :
  coalesce (Coalescer accept false (Some []) (Some [T1])) (Some [T1]) (Some [])
  = Coalescer accept false (Some []) (Some []).
Proof. vm_compute. reflexivity. Qed.

Example merge_unrelated_keys :
  coalesce (Coalescer accept false (Some [T2]) (Some [])) (Some []) (Some [T3])
  = Coalescer accept false (Some [T2]) (Some [T3]).
Proof. vm_compute. reflexivity. Qed.

(** Repeated elements of one sequence are kept. *)
Example merge_keeps_repetitions :
  c_apply (coalesce (hcc fresh) None (Some [T1; T1])) = Some [T1; T1].
Proof. vm_compute. reflexivity. Qed.

(** A failing consumer: the error is in the log, Pending State is nil, the
    loop runs, and the next submission is accepted. *)
Example failed_dispatch_is_logged :
  logged (run 10 [(0, Submit None (Some [T1])); (10, Expire)] fresh_rejecting)
  = [Failure "state computation failed"]
  ∧ pending_nil
      (run 10 [(0, Submit None (Some [T1])); (10, Expire)] fresh_rejecting)
  ∧ running
      (run 10 [(0, Submit None (Some [T1])); (10, Expire)] fresh_rejecting)
    = true
  ∧ (HeadChange 10 11 None (Some [T2])
       (run 10 [(0, Submit None (Some [T1])); (10, Expire)] fresh_rejecting)).1
    = None.
Proof. vm_compute. repeat split. Qed.

(** A test of key disjointness that computes. *)
Lemma key_disjoint_check {T K : Type} `{Countable K} `{!HasKey T K}
    (r a : slice T) :
  forallb (λ ts, bool_decide (¬ has_key (Key ts) a)) (items r) = true →
  key_disjoint r a.
Proof.
  intros Hall k [Hr Ha]. unfold has_key in Hr.
  apply list_elem_of_fmap in Hr as (ts & -> & Hin).
  rewrite forallb_forall in Hall. apply list_elem_of_In, Hall in Hin.
  by apply bool_decide_eq_true in Hin.
Qed.

(** C2, counterexample. An incoming event that reverts and applies the same
    tipset, merged into a coalescer with nothing pending: the key of the
    tipset is in both sequences after the merge. *)
Lemma coalesce_keeps_self_conflicting_key :
  c_revert (coalesce (hcc fresh) (Some [T1]) (Some [T1])) = Some [T1]
  ∧ c_apply (coalesce (hcc fresh) (Some [T1]) (Some [T1])) = Some [T1]
  ∧ has_key (Key T1) (c_revert (coalesce (hcc fresh) (Some [T1]) (Some [T1])))
  ∧ has_key (Key T1) (c_apply (coalesce (hcc fresh) (Some [T1]) (Some [T1]))).
Proof.
  assert (ER : c_revert (coalesce (hcc fresh) (Some [T1]) (Some [T1]))
               = Some [T1]) by (vm_compute; reflexivity).
  assert (EA : c_apply (coalesce (hcc fresh) (Some [T1]) (Some [T1]))
               = Some [T1]) by (vm_compute; reflexivity).
  rewrite ER, EA. repeat split; apply list_elem_of_here.
Qed.

Lemma pending_stays_key_disjoint_witness :
  key_disjoint
    (c_revert (hcc (run 10 [(0, Submit None (Some [T1]));
                            (1, Submit (Some [T1]) (Some [T2]));
                            (2, Shutdown); (3, Observe)] fresh)))
    (c_apply (hcc (run 10 [(0, Submit None (Some [T1]));
                           (1, Submit (Some [T1]) (Some [T2]));
                           (2, Shutdown); (3, Observe)] fresh))).
Proof.
  apply (pending_stays_key_disjoint 10 accept 0%nat).
  repeat (constructor;
          [first [exact I
                 |apply key_disjoint_check; vm_compute; reflexivity]|]).
  constructor.
Defined.

Lemma coalesce_preserves_key_disjoint_witness :
  key_disjoint (Some [T2]) (Some [T1])
  ∧ key_disjoint (Some [T1]) (Some [T3])
  ∧ key_disjoint
      (c_revert (coalesce (Coalescer accept false (Some [T2]) (Some [T1]))
                   (Some [T1]) (Some [T3])))
      (c_apply (coalesce (Coalescer accept false (Some [T2]) (Some [T1]))
                  (Some [T1]) (Some [T3]))).
Proof.
  assert (H1 : key_disjoint (Some [T2]) (Some [T1]))
    by (apply key_disjoint_check; vm_compute; reflexivity).
  assert (H2 : key_disjoint (Some [T1]) (Some [T3]))
    by (apply key_disjoint_check; vm_compute; reflexivity).
  split; [exact H1|]. split; [exact H2|].
  exact (coalesce_preserves_key_disjoint
           (Coalescer accept false (Some [T2]) (Some [T1]))
           (Some [T1]) (Some [T3]) H1 H2).
Defined.

Lemma flush_on_close_witness :
  ∃ t, calls (run 10 [(4, Submit None (Some [T3])); (5, Observe)]
                (Close (run 10 [(0, Submit None (Some [T1]))] fresh)).2)
       = calls (run 10 [(0, Submit None (Some [T1]))] fresh)
         ++ [Call t (Some []) (Some [T1])]
       ∧ running (run 10 [(4, Submit None (Some [T3])); (5, Observe)]
                    (Close (run 10 [(0, Submit None (Some [T1]))] fresh)).2)
         = false
       ∧ ∀ later,
           calls (run 10 ([(4, Submit None (Some [T3])); (5, Observe)]
                          ++ later)
                    (Close (run 10 [(0, Submit None (Some [T1]))] fresh)).2)
           = calls (run 10 [(4, Submit None (Some [T3])); (5, Observe)]
                      (Close (run 10 [(0, Submit None (Some [T1]))] fresh)).2).
Proof.
  apply (flush_on_close 10 (run 10 [(0, Submit None (Some [T1]))] fresh)
           [(4, Submit None (Some [T3])); (5, Observe)]).
  - vm_compute. reflexivity.
  - intros [_ E]. vm_compute in E. discriminate E.
  - vm_compute. right. left.
Defined.

(** C4, counterexample. An application and its reversal cancel: Pending
    State contains no tipset and nothing has been dispatched. The coalescer
    is closed, and the callback is invoked, with two sequences without
    elements. *)
Lemma close_flushes_empty_pending :
  pending_empty (run 10 apply_then_revert fresh)
  ∧ calls (run 10 apply_then_revert fresh) = []
  ∧ calls (run 10 [(3, Observe)] (Close (run 10 apply_then_revert fresh)).2)
    = [Call 3 (Some []) (Some [])].
Proof. vm_compute. repeat split. Qed.

Lemma no_flush_on_close_when_nil_witness :
  pending_nil (run 10 [(0, Submit None (Some [T1])); (10, Expire)] fresh)
  ∧ calls (run 10 [(11, Submit None (Some [T2])); (12, Observe)]
             (Close (run 10 [(0, Submit None (Some [T1])); (10, Expire)]
                       fresh)).2)
    = calls (run 10 [(0, Submit None (Some [T1])); (10, Expire)] fresh)
  ∧ running (run 10 [(11, Submit None (Some [T2])); (12, Observe)]
               (Close (run 10 [(0, Submit None (Some [T1])); (10, Expire)]
                         fresh)).2)
    = false.
Proof.
  assert (Hnil : pending_nil
                   (run 10 [(0, Submit None (Some [T1])); (10, Expire)] fresh))
    by (split; vm_compute; reflexivity).
  split; [exact Hnil|].
  destruct (no_flush_on_close_when_nil 10 accept 0%nat
              [(0, Submit None (Some [T1])); (10, Expire)]
              [(11, Submit None (Some [T2])); (12, Observe)] Hnil)
    as [Hcalls Hstop].
  split; [exact Hcalls|]. apply Hstop. vm_compute. right. left.
Defined.

(** C7, counterexample. Three submissions 6 apart, for a delay of 10:
    consecutive arrivals are less than the delay apart. The timer armed at 0
    fires at 10, between the second and the third submission, and the third
    arms a timer of its own: the callback is invoked twice, and neither time
    with the net effect of the three. The schedule in which the timer waits
    for the third submission is not punctual. *)
Lemma closely_spaced_burst_dispatched_twice :
  closely_spaced 10 slow_burst.*1
  ∧ submitted slow_burst_schedule = slow_burst
  ∧ punctual 10 slow_burst_schedule fresh = true
  ∧ calls (run 10 slow_burst_schedule fresh)
    = [Call 10 (Some []) (Some [T1; T2]); Call 22 (Some []) (Some [T3])]
  ∧ c_apply (net_effect (hcc fresh) slow_burst.*2) = Some [T1; T2; T3]
  ∧ punctual 10 (submissions slow_burst ++ [(12, Expire)]) fresh = false.
Proof.
  split; [simpl; lia|]. vm_compute. repeat split.
Qed.

Lemma burst_within_window_dispatched_once_witness :
  calls (run 10 (submissions [(0, HC None (Some [T1]));
                              (6, HC None (Some [T2]));
                              (9, HC (Some [T2]) (Some [T3]))]
                 ++ [(0 + 10, Expire)]) fresh)
  = calls fresh
    ++ [Call (0 + 10)
          (c_revert (net_effect (hcc fresh)
                       (HC None (Some [T1])
                        :: [(6, HC None (Some [T2]));
                            (9, HC (Some [T2]) (Some [T3]))].*2)))
          (c_apply (net_effect (hcc fresh)
                      (HC None (Some [T1])
                       :: [(6, HC None (Some [T2]));
                           (9, HC (Some [T2]) (Some [T3]))].*2)))].
Proof.
  apply (burst_within_window_dispatched_once 10 fresh 0
           (HC None (Some [T1]))
           [(6, HC None (Some [T2])); (9, HC (Some [T2]) (Some [T3]))]).
  - repeat split.
  - repeat constructor; simpl; lia.
Defined.

Lemma window_is_not_sliding_witness :
  ∃ cl more,
    calls (run 10 ((0, Submit None (Some [T1]))
                   :: [(6, Submit None (Some [T2])); (10, Expire);
                       (12, Submit None (Some [T3]))]) fresh)
    = calls fresh ++ cl :: more
    ∧ 0 ≤ call_time cl ≤ 0 + 10.
Proof.
  apply (window_is_not_sliding 10 fresh 0 None (Some [T1])
           [(6, Submit None (Some [T2])); (10, Expire);
            (12, Submit None (Some [T3]))]).
  - reflexivity.
  - reflexivity.
  - reflexivity.
  - vm_compute. reflexivity.
  - repeat constructor; simpl; lia.
  - apply Exists_cons_tl, Exists_cons_tl, Exists_cons_hd. simpl. lia.
Defined.

Lemma cancelled_burst_still_dispatched_witness :
  calls (run 10 [(0, Submit None (Some [T1])); (5, Submit (Some [T1]) None);
                 (0 + 10, Expire)] fresh)
  = calls fresh ++ [Call (0 + 10) (Some []) (Some [])].
Proof.
  assert (Hidle : idle fresh) by (repeat split).
  assert (Hlt : 5 < 0 + 10) by lia.
  destruct (cancelled_burst_still_dispatched 10 fresh T1 0 5 7 Hidle Hlt)
    as (_ & _ & _ & Hcalls & _).
  exact Hcalls.
Defined.
End Examples.


(** * Further properties of the merge *)

Section FurtherMergeProperties.
Context {TipSet TipSetKey W : Type}.
Context `{Countable TipSetKey} `{!HasKey TipSet TipSetKey}.
Implicit Types (c : HeadChangeCoalescer TipSet W) (R A r a s : slice TipSet).
Implicit Types (k : TipSetKey) (ts : TipSet).

Lemma survivors_none s against :
  (∀ ts, ts ∈ items s → has_key (Key ts) against) →
  survivors s against = [].
Proof.
  unfold survivors. generalize (items s) as l.
  induction l as [|ts l IH]; intros Hall; [done|].
  rewrite filter_cons_False.
  - apply IH. intros ts' Hin. apply Hall. by right.
  - intros Hn. apply Hn, Hall. left.
Qed.

Lemma has_key_own ts (l : list TipSet) s :
  items s = l → ts ∈ l → has_key (Key ts) s.
Proof.
  intros E Hin. unfold has_key. rewrite E.
  apply list_elem_of_fmap. eauto.
Qed.

(** X1. A head change merged into a coalescer with no pending tipset,
    followed by its inverse (what was applied is reverted, what was reverted
    is applied again), leaves no tipset pending, whatever the two sequences
    hold; both pending sequences are non-nil all the same. *)
Theorem coalesce_inverse_cancels c r a :
  items (c_revert c) = [] →
  items (c_apply c) = [] →
  c_revert (coalesce (coalesce c r a) a r) = Some []
  ∧ c_apply (coalesce (coalesce c r a) a r) = Some [].
Proof.
  intros ER EA.
  pose proof (coalesce_revert c r a) as H1.
  pose proof (coalesce_apply c r a) as H2.
  rewrite (coalesce_revert (coalesce c r a)), (coalesce_apply (coalesce c r a)).
  assert (E0 : ∀ s against, items s = [] → survivors s against = [])
    by (intros s against E; unfold survivors; by rewrite E).
  assert (E1 : ∀ s against, items against = [] →
                            survivors s against = items s).
  { intros s against E. apply survivors_all. intros ts _ Hk.
    unfold has_key in Hk. rewrite E in Hk. by apply elem_of_nil in Hk. }
  rewrite (E0 (c_revert c)), (E1 r) in H1 by done.
  rewrite (E0 (c_apply c)), (E1 a) in H2 by done.
  rewrite H1, H2; simpl.
  rewrite !survivors_none; [done|..];
    intros ts Hin; by eapply has_key_own.
Qed.

(** X2. When no key of an incoming sequence is in the opposing pending
    sequence and no key of a pending sequence is in the opposing incoming
    one, nothing cancels: each new sequence is the pending one followed by
    the incoming one, element for element. *)
Theorem coalesce_unrelated_concatenates c r a :
  (∀ k, ¬ (has_key k (c_revert c) ∧ has_key k a)) →
  (∀ k, ¬ (has_key k (c_apply c) ∧ has_key k r)) →
  c_revert (coalesce c r a) = Some (items (c_revert c) ++ items r)
  ∧ c_apply (coalesce c r a) = Some (items (c_apply c) ++ items a).
Proof.
  intros HRa HAr. rewrite coalesce_revert, coalesce_apply.
  assert (Hown : ∀ s ts, ts ∈ items s → has_key (Key ts) s)
    by (intros s ts Hin; by eapply has_key_own).
  rewrite (survivors_all (c_revert c) a), (survivors_all r (c_apply c)),
    (survivors_all (c_apply c) r), (survivors_all a (c_revert c)); [done|..];
    intros ts Hin Hk.
  - apply (HRa (Key ts)). split; [done|by apply Hown].
  - apply (HAr (Key ts)). split; [by apply Hown|done].
  - apply (HAr (Key ts)). split; [done|by apply Hown].
  - apply (HRa (Key ts)). split; [by apply Hown|done].
Qed.

(** X3. The keys of the new sequences: a key is in the new revert sequence
    exactly when it is in the pending revert sequence and not in the
    incoming apply sequence, or in the incoming revert sequence and not in
    the pending apply sequence; and the same for the new apply sequence,
    with the two kinds exchanged. *)
Theorem coalesce_keys c r a k :
  (has_key k (c_revert (coalesce c r a))
   ↔ (has_key k (c_revert c) ∧ ¬ has_key k a)
     ∨ (has_key k r ∧ ¬ has_key k (c_apply c)))
  ∧ (has_key k (c_apply (coalesce c r a))
     ↔ (has_key k (c_apply c) ∧ ¬ has_key k r)
       ∨ (has_key k a ∧ ¬ has_key k (c_revert c))).
Proof.
  rewrite coalesce_revert, coalesce_apply, !has_key_Some_app,
    !has_key_survivors.
  tauto.
Qed.

(** X4. The merge treats reverts and applies alike: with the pending
    sequences exchanged and the incoming sequences exchanged, it leaves the
    same two sequences, exchanged. *)
Theorem coalesce_mirror (fn : ReorgNotifee TipSet W) (d : bool) R A r a :
  c_revert (coalesce (Coalescer fn d A R) a r)
  = c_apply (coalesce (Coalescer fn d R A) r a)
  ∧ c_apply (coalesce (Coalescer fn d A R) a r)
    = c_revert (coalesce (Coalescer fn d R A) r a).
Proof.
  by rewrite !coalesce_revert, !coalesce_apply.
Qed.

(** X5. The merge invents nothing and never outgrows its allocation: every
    element of a new sequence is an element of the pending or of the
    incoming sequence of the same kind, and a new sequence is no longer
    than the two together, the capacity [make] gives it. The other fields
    of the coalescer are not touched. *)
Theorem coalesce_only_removes c r a :
  (∀ ts, ts ∈ items (c_revert (coalesce c r a)) →
         ts ∈ items (c_revert c) ∨ ts ∈ items r)
  ∧ (∀ ts, ts ∈ items (c_apply (coalesce c r a)) →
           ts ∈ items (c_apply c) ∨ ts ∈ items a)
  ∧ (length (items (c_revert (coalesce c r a)))
     ≤ length (items (c_revert c)) + length (items r))%nat
  ∧ (length (items (c_apply (coalesce c r a)))
     ≤ length (items (c_apply c)) + length (items a))%nat
  ∧ notify (coalesce c r a) = notify c
  ∧ ctx_done (coalesce c r a) = ctx_done c.
Proof.
  rewrite coalesce_revert, coalesce_apply. unfold survivors; simpl.
  repeat split.
  - intros ts Hin. apply elem_of_app in Hin as [Hin|Hin];
      apply list_elem_of_filter in Hin as [_ Hin]; auto.
  - intros ts Hin. apply elem_of_app in Hin as [Hin|Hin];
      apply list_elem_of_filter in Hin as [_ Hin]; auto.
  - rewrite length_app.
    pose proof (length_filter (λ ts, ¬ has_key (Key ts) a)
                  (items (c_revert c))).
    pose proof (length_filter (λ ts, ¬ has_key (Key ts) (c_apply c))
                  (items r)).
    lia.
  - rewrite length_app.
    pose proof (length_filter (λ ts, ¬ has_key (Key ts) r)
                  (items (c_apply c))).
    pose proof (length_filter (λ ts, ¬ has_key (Key ts) (c_revert c))
                  (items a)).
    lia.
Qed.
End FurtherMergeProperties.


(** * Further properties of the loop and of the entry points *)

Section FurtherLoopProperties.
Context {TipSet TipSetKey W : Type}.
Context `{Countable TipSetKey} `{!HasKey TipSet TipSetKey}.
Variable delay : Z.
Implicit Types (m : machine TipSet W) (r a : slice TipSet).
Implicit Types (sched : list (Z * action TipSet)) (now : Z).

(** ** What the loop keeps true *)

Lemma well_kept_New (fn : ReorgNotifee TipSet W) (w : W) :
  well_kept (NewHeadChangeCoalescer fn w).
Proof.
  split; [done|]. split; [|split; [done|constructor]].
  intros _. simpl. split; [by intros [? ?]|done].
Qed.

Lemma non_nil_false {T} (s : slice T) : non_nil s = false → s = None.
Proof. by destruct s. Qed.

Lemma well_kept_exec m ta : well_kept m → well_kept (exec delay m ta).
Proof.
  intros (Hboth & Htimer & Hret & Hcalls).
  destruct (exec_cases delay m ta)
    as [->|[(r & a & _ & Hl & ->)|[(_ & Hl & ->)|[(_ & Hrdy & ->)
       |(_ & Hrdy & ->)]]]].
  - done.
  - assert (Hr : running m = true).
    { destruct (running m) eqn:Hr; [done|]. destruct (Hret eq_refl). congruence. }
    unfold well_kept, on_event; simpl. rewrite Hr.
    split; [done|]. split; [|split; [done|exact Hcalls]].
    intros _. split; [done|]. intros _. destruct (timerC m); eauto.
  - assert (Hr : running m = true).
    { destruct (running m) eqn:Hr; [done|]. destruct (Hret eq_refl). congruence. }
    unfold well_kept, Close; simpl. rewrite Hl; simpl. rewrite Hr.
    split; [done|]. split; [by intros _; apply Htimer|]. by split.
  - unfold ready in Hrdy. apply andb_true_iff in Hrdy as [Hr Hd].
    destruct (timerC m) as [d|] eqn:Ht; [|done].
    destruct (Htimer Hr) as [HR _]. specialize (HR (ex_intro _ d eq_refl)).
    unfold well_kept, on_timer, pending_nil; simpl.
    rewrite dispatch_hcc, dispatch_running, dispatch_calls, Hr; simpl.
    split; [done|]. split; [intros _; split; [by intros [? ?]|done]|].
    split; [done|]. apply Forall_app. split; [done|].
    constructor; [|constructor]. split; simpl; congruence.
  - unfold ready in Hrdy. apply andb_true_iff in Hrdy as [Hr Hd].
    unfold well_kept, on_done, pending_nil.
    destruct (non_nil (c_revert (hcc m)) || non_nil (c_apply (hcc m))) eqn:E;
      simpl.
    + rewrite dispatch_hcc, dispatch_calls; simpl.
      split; [done|]. split; [done|]. split; [done|].
      apply Forall_app. split; [done|]. constructor; [|constructor].
      rewrite <- Hboth, orb_diag in E. split; simpl; congruence.
    + rewrite <- Hboth, orb_diag in E.
      split; [done|]. split; [done|]. split; [|done]. intros _.
      split; [|done]. split; apply non_nil_false; congruence.
Qed.

Lemma well_kept_run sched m : well_kept m → well_kept (run delay sched m).
Proof.
  revert m. induction sched as [|ta sched IH]; intros m Hm; [done|].
  rewrite run_cons. by apply IH, well_kept_exec.
Qed.

(** X7. The callback is never given a nil sequence: in every state a
    coalescer reaches, each invocation recorded so far had a non-nil revert
    and a non-nil apply sequence. *)
Theorem callback_never_given_nil (fn : ReorgNotifee TipSet W) (w : W) sched :
  Forall non_nil_call (calls (run delay sched (NewHeadChangeCoalescer fn w))).
Proof.
  by destruct (well_kept_run sched _ (well_kept_New fn w)) as (_ & _ & _ & ?).
Qed.

(** X9. [background] never returns with something pending: in every state a
    coalescer reaches with its loop returned, both pending fields are nil,
    the context is cancelled, and [Close] has been called. *)
Theorem returned_loop_leaves_nothing_pending
    (fn : ReorgNotifee TipSet W) (w : W) sched :
  running (run delay sched (NewHeadChangeCoalescer fn w)) = false →
  pending_nil (run delay sched (NewHeadChangeCoalescer fn w))
  ∧ ctx_done (hcc (run delay sched (NewHeadChangeCoalescer fn w))) = true
  ∧ shuts_down sched = true.
Proof.
  intros Hr.
  destruct (well_kept_run sched _ (well_kept_New fn w)) as (_ & _ & Hret & _).
  destruct (Hret Hr) as [Hnil Hd]. split; [done|]. split; [done|].
  by rewrite ctx_done_run_eq in Hd.
Qed.

(** X10. While the loop runs, a timer is armed exactly when something is
    pending, and the two pending fields are nil or non-nil together: the
    timer channel is non-nil if and only if [c.revert] is, if and only if
    [c.apply] is. *)
Theorem timer_armed_iff_pending (fn : ReorgNotifee TipSet W) (w : W) sched :
  running (run delay sched (NewHeadChangeCoalescer fn w)) = true →
  (is_Some (timerC (run delay sched (NewHeadChangeCoalescer fn w)))
   ↔ non_nil (c_revert (hcc (run delay sched (NewHeadChangeCoalescer fn w))))
     = true)
  ∧ non_nil (c_revert (hcc (run delay sched (NewHeadChangeCoalescer fn w))))
    = non_nil (c_apply (hcc (run delay sched (NewHeadChangeCoalescer fn w)))).
Proof.
  intros Hr.
  destruct (well_kept_run sched _ (well_kept_New fn w)) as (Hb & Ht & _ & _).
  split; [by apply Ht|done].
Qed.

(** ** Counting dispatches *)

Lemma submitted_cons ta sched :
  length (submitted (ta :: sched))
  = (length (submitted [ta]) + length (submitted sched))%nat.
Proof. destruct ta as [t [r a| | |]]; done. Qed.

Lemma owed_exec m ta :
  well_kept m →
  (length (calls (exec delay m ta)) + owed (exec delay m ta)
   ≤ length (calls m) + owed m + length (submitted [ta]))%nat.
Proof.
  intros (Hboth & Htimer & Hret & Hcalls).
  destruct (exec_cases delay m ta)
    as [->|[(r & a & E & Hl & ->)|[(_ & Hl & ->)|[(_ & Hrdy & ->)
       |(_ & Hrdy & ->)]]]].
  - lia.
  - destruct ta as [t act]; simpl in E; subst act.
    unfold owed, on_event; simpl. destruct (non_nil _); lia.
  - unfold owed, Close; simpl. rewrite Hl; simpl. lia.
  - unfold ready in Hrdy. apply andb_true_iff in Hrdy as [Hr Hd].
    destruct (timerC m) as [d|] eqn:Ht; [|done].
    destruct (Htimer Hr) as [HR _]. specialize (HR (ex_intro _ d eq_refl)).
    rewrite calls_on_timer, length_app. unfold owed, on_timer; simpl.
    rewrite dispatch_hcc, HR; simpl. lia.
  - rewrite calls_on_done, length_app. unfold owed, on_done.
    rewrite <- Hboth, orb_diag.
    destruct (non_nil (c_revert (hcc m))) eqn:E; simpl.
    + rewrite dispatch_hcc; simpl. lia.
    + rewrite E. lia.
Qed.

Lemma owed_run sched m :
  well_kept m →
  (length (calls (run delay sched m)) + owed (run delay sched m)
   ≤ length (calls m) + owed m + length (submitted sched))%nat.
Proof.
  revert m. induction sched as [|ta sched IH]; intros m Hm.
  - simpl. lia.
  - rewrite run_cons, submitted_cons.
    pose proof (owed_exec m ta Hm).
    pose proof (IH _ (well_kept_exec m ta Hm)). lia.
Qed.

(** X8. Coalescing never multiplies notifications: in every state a
    coalescer reaches, the callback has been invoked at most as many times
    as [HeadChange] has been called, and one time less while something is
    pending. *)
Theorem dispatches_bounded_by_submissions
    (fn : ReorgNotifee TipSet W) (w : W) sched :
  (length (calls (run delay sched (NewHeadChangeCoalescer fn w)))
   + owed (run delay sched (NewHeadChangeCoalescer fn w))
   ≤ length (submitted sched))%nat.
Proof.
  pose proof (owed_run sched _ (well_kept_New fn w)) as Hle.
  simpl in Hle. exact Hle.
Qed.

(** ** Inside the window *)

Lemma quiet_until_deadline d rest m :
  running m = true →
  ctx_done (hcc m) = false →
  timerC m = Some d →
  Forall (λ ta, ta.1 < d ∧ ta.2 ≠ Shutdown) rest →
  calls (run delay rest m) = calls m
  ∧ timerC (run delay rest m) = Some d
  ∧ running (run delay rest m) = true.
Proof.
  intros Hr Hl Ht Hall. revert m Hr Hl Ht.
  induction Hall as [|[t act] rest [Hlt Hns] _ IH]; intros m Hr Hl Ht; [done|].
  simpl in Hlt, Hns. rewrite run_cons.
  destruct act as [r a| | |]; unfold exec; simpl.
  - unfold HeadChange. rewrite Hl; simpl.
    destruct (IH (on_event delay t (HC r a) m)) as (-> & -> & ->);
      simpl; by rewrite ?Ht.
  - done.
  - unfold background_iter, ready. rewrite Hr, Ht; simpl.
    rewrite bool_decide_eq_false_2 by lia. simpl. by apply IH.
  - unfold background_iter, ready. rewrite Hr, Hl; simpl. by apply IH.
Qed.

(** X11. The delay is a lower bound on the latency: after a submission at
    [t0] received with no timer armed, and as long as [Close] is not called,
    nothing that happens before [t0 + delay] invokes the callback, and the
    timer stays the one that submission armed. *)
Theorem no_dispatch_inside_window m t0 r a rest :
  running m = true →
  ctx_done (hcc m) = false →
  timerC m = None →
  Forall (λ ta, ta.1 < t0 + delay ∧ ta.2 ≠ Shutdown) rest →
  calls (run delay ((t0, Submit r a) :: rest) m) = calls m
  ∧ timerC (run delay ((t0, Submit r a) :: rest) m) = Some (t0 + delay)
  ∧ running (run delay ((t0, Submit r a) :: rest) m) = true.
Proof.
  intros Hr Hl Ht Hall. rewrite run_cons.
  assert (E : exec delay m (t0, Submit r a) = on_event delay t0 (HC r a) m).
  { unfold exec, HeadChange; simpl. by rewrite Hl. }
  rewrite E.
  destruct (quiet_until_deadline (t0 + delay) rest
              (on_event delay t0 (HC r a) m)) as (-> & -> & ->);
    simpl; by rewrite ?Ht.
Qed.

(** X6. An event without elements is an event all the same: submitted to an
    idle coalescer it arms the timer, and when the timer fires the callback
    is invoked with two non-nil sequences without elements. *)
Theorem empty_event_is_dispatched m t0 r a :
  idle m →
  items r = [] →
  items a = [] →
  timerC (run delay [(t0, Submit r a)] m) = Some (t0 + delay)
  ∧ calls (run delay [(t0, Submit r a); (t0 + delay, Expire)] m)
    = calls m ++ [Call (t0 + delay) (Some []) (Some [])].
Proof.
  intros (Hr & Hl & Ht & HR & HA) Er Ea.
  assert (E : exec delay m (t0, Submit r a)
              = Machine (Coalescer (notify (hcc m)) false (Some []) (Some []))
                  (Some (t0 + delay)) true (consumer m) (calls m) (logged m)).
  { unfold exec, HeadChange; simpl. rewrite Hl. unfold on_event; simpl.
    rewrite coalesce_eq, HR, HA, Hl, Ht, Hr.
    by rewrite !survivors_of_nothing. }
  rewrite !run_cons, E, !run_nil. split; [done|].
  unfold exec, background_iter, ready; simpl.
  rewrite bool_decide_eq_true_2 by lia; simpl.
  by rewrite dispatch_calls.
Qed.

(** ** What is dispatched *)

Lemma calls_exec_cases m ta :
  calls (exec delay m ta) = calls m
  ∨ ∃ t, calls (exec delay m ta)
         = calls m ++ [Call t (c_revert (hcc m)) (c_apply (hcc m))].
Proof.
  destruct (exec_cases delay m ta)
    as [->|[(r & a & _ & _ & ->)|[(_ & Hl & ->)|[(_ & _ & ->)|(_ & _ & ->)]]]].
  - by left.
  - by left.
  - left. unfold Close; simpl. by rewrite Hl.
  - right. eexists. apply calls_on_timer.
  - rewrite calls_on_done. destruct (_ || _).
    + right. by eexists.
    + left. by rewrite app_nil_r.
Qed.

(** X12. As long as no submitted event has a key in both its revert and its
    apply sequence, no batch handed to the callback has a key in both its
    sequences. *)
Theorem dispatched_batches_key_disjoint
    (fn : ReorgNotifee TipSet W) (w : W) sched :
  Forall (λ ta, consistent ta.2) sched →
  Forall (λ cl, key_disjoint (call_revert cl) (call_apply cl))
    (calls (run delay sched (NewHeadChangeCoalescer fn w))).
Proof.
  intros Hall.
  assert (G : ∀ m,
    key_disjoint (c_revert (hcc m)) (c_apply (hcc m)) →
    Forall (λ cl, key_disjoint (call_revert cl) (call_apply cl)) (calls m) →
    Forall (λ cl, key_disjoint (call_revert cl) (call_apply cl))
      (calls (run delay sched m))).
  { induction Hall as [|ta sched Hta _ IH]; intros m Hm Hcs; [done|].
    rewrite run_cons. apply IH; [by apply key_disjoint_exec|].
    destruct (calls_exec_cases m ta) as [->|[t ->]]; [done|].
    apply Forall_app. split; [done|]. by constructor. }
  apply G; [apply key_disjoint_nil_l|constructor].
Qed.

(** ** The log *)

Lemma notify_exec m ta : notify (hcc (exec delay m ta)) = notify (hcc m).
Proof.
  destruct (exec_cases delay m ta)
    as [->|[(r & a & _ & _ & ->)|[(_ & Hl & ->)|[(_ & _ & ->)|(_ & _ & ->)]]]].
  - done.
  - done.
  - unfold Close; simpl. by rewrite Hl.
  - unfold on_timer; simpl. by rewrite dispatch_hcc.
  - unfold on_done; simpl. destruct (_ || _); [|done]. by rewrite dispatch_hcc.
Qed.

(** An action adds to the log at most what it adds to the invocations, and
    only errors that the callback returns. *)
Lemma logged_exec m ta :
  ∃ es cs,
    logged (exec delay m ta) = logged m ++ es
    ∧ calls (exec delay m ta) = calls m ++ cs
    ∧ (length es ≤ length cs)%nat
    ∧ Forall (λ e, ∃ r a w, (notify (hcc m) r a w).1 = Some e) es.
Proof.
  assert (Hdisp : ∀ t, ∃ es cs,
    logged (dispatch t m) = logged m ++ es
    ∧ calls (dispatch t m) = calls m ++ cs
    ∧ (length es ≤ length cs)%nat
    ∧ Forall (λ e, ∃ r a w, (notify (hcc m) r a w).1 = Some e) es).
  { intros t. rewrite dispatch_logged, dispatch_calls.
    destruct (notify _ _ _ _).1 as [e|] eqn:E.
    - exists [e]. eexists. split; [done|]. split; [done|]. split; [done|].
      constructor; [|constructor]. eauto.
    - exists []. eexists. split; [done|]. split; [done|]. split; [simpl; lia|].
      constructor. }
  assert (Hsame : ∃ es cs,
    logged m = logged m ++ es ∧ calls m = calls m ++ cs
    ∧ (length es ≤ length cs)%nat
    ∧ Forall (λ e, ∃ r a w, (notify (hcc m) r a w).1 = Some e) es).
  { exists [], []. rewrite !app_nil_r. repeat split; [done|constructor]. }
  destruct (exec_cases delay m ta)
    as [->|[(r & a & _ & _ & ->)|[(_ & Hl & ->)|[(_ & _ & ->)|(_ & _ & ->)]]]].
  - done.
  - done.
  - unfold Close; simpl. by rewrite Hl.
  - unfold on_timer; simpl. apply Hdisp.
  - unfold on_done; simpl. destruct (_ || _); [apply Hdisp|done].
Qed.

(** X15. The log holds errors of the callback and nothing else: whatever is
    true of every error the callback can return is true of every entry of
    the log, and there are at most as many entries as invocations. A
    callback that never fails leaves the log empty. *)
Theorem log_holds_callback_errors (fn : ReorgNotifee TipSet W) (w : W) sched
    (P : error → Prop) :
  (∀ r a w' e, (fn r a w').1 = Some e → P e) →
  Forall P (logged (run delay sched (NewHeadChangeCoalescer fn w)))
  ∧ (length (logged (run delay sched (NewHeadChangeCoalescer fn w)))
     ≤ length (calls (run delay sched (NewHeadChangeCoalescer fn w))))%nat.
Proof.
  intros HP.
  assert (G : ∀ m, notify (hcc m) = fn → Forall P (logged m) →
                   (length (logged m) ≤ length (calls m))%nat →
                   Forall P (logged (run delay sched m))
                   ∧ (length (logged (run delay sched m))
                      ≤ length (calls (run delay sched m)))%nat).
  { induction sched as [|ta sched IH]; intros m Hfn HF Hlen; [done|].
    rewrite run_cons.
    destruct (logged_exec m ta) as (es & cs & El & Ec & Hle & Hes).
    apply IH.
    - by rewrite notify_exec.
    - rewrite El. apply Forall_app. split; [done|].
      eapply Forall_impl; [exact Hes|]. intros e (r & a & w' & E).
      rewrite Hfn in E. by eapply HP.
    - rewrite El, Ec, !length_app. lia. }
  apply G; [done|constructor|done].
Qed.

(** ** Close, and a coalescer that cannot be closed *)

(** X13. [Close] returns nil and one call is enough: a second call, at any
    later moment and whatever has happened in between, changes nothing. *)
Theorem Close_once_is_enough m t since t' later :
  (Close m).1 = None
  ∧ Close (Close m).2 = (None, (Close m).2)
  ∧ run delay (((t, Shutdown) :: since) ++ (t', Shutdown) :: later) m
    = run delay (((t, Shutdown) :: since) ++ later) m.
Proof.
  split; [done|]. split.
  - unfold Close at 1. by rewrite ctx_done_Close.
  - rewrite !run_app, (run_cons _ (t', Shutdown)). f_equal.
    assert (Hd : ctx_done (hcc (run delay ((t, Shutdown) :: since) m))
                 = true).
    { rewrite run_cons. apply ctx_done_run. unfold exec; simpl.
      apply ctx_done_Close. }
    unfold exec. cbn [snd]. unfold Close. by rewrite Hd.
Qed.

(** X14. The caller of [WrapHeadChangeCoalescer] holds the notifee and no
    way to call [Close]. So the notifee never returns an error, the context
    is never cancelled, and [background] never returns. *)
Theorem wrapped_notifee_never_fails (fn : ReorgNotifee TipSet W) (w : W)
    sched now r a :
  shuts_down sched = false →
  ((WrapHeadChangeCoalescer fn delay w).2 now r a
     (run delay sched (WrapHeadChangeCoalescer fn delay w).1)).1 = None
  ∧ ctx_done (hcc (run delay sched (WrapHeadChangeCoalescer fn delay w).1))
    = false
  ∧ running (run delay sched (WrapHeadChangeCoalescer fn delay w).1) = true.
Proof.
  intros Hns. unfold WrapHeadChangeCoalescer; simpl.
  assert (Hl : ctx_done (hcc (run delay sched (NewHeadChangeCoalescer fn w)))
               = false) by (by rewrite ctx_done_run_eq, Hns).
  split; [unfold HeadChange; by rewrite Hl|]. split; [done|].
  destruct (running _) eqn:Hr; [done|].
  assert (Hinv : returns_on_cancel
                   (run delay sched (NewHeadChangeCoalescer fn w)))
    by (apply returns_on_cancel_run; intros ?; done).
  apply Hinv in Hr. congruence.
Qed.

(** ** Every accepted event is delivered once *)

Lemma batch_snoc (fn : ReorgNotifee TipSet W)
    (c : HeadChangeCoalescer TipSet W) evts r a :
  (c_revert c, c_apply c) = batch fn evts →
  (c_revert (coalesce c r a), c_apply (coalesce c r a))
  = batch fn (evts ++ [HC r a]).
Proof.
  unfold batch, net_effect. intros [= ER EA].
  rewrite foldl_snoc. cbn [hc_revert hc_apply].
  by rewrite !coalesce_revert, !coalesce_apply, ER, EA.
Qed.

Lemma batch_non_nil (fn : ReorgNotifee TipSet W) evts :
  evts ≠ [] →
  non_nil (batch fn evts).1 = true ∧ non_nil (batch fn evts).2 = true.
Proof.
  destruct evts as [|e evts _] using rev_ind; [done|]. intros _.
  unfold batch, net_effect. rewrite foldl_snoc. cbn [fst snd].
  by rewrite coalesce_revert, coalesce_apply.
Qed.

Lemma batch_nil_inv (fn : ReorgNotifee TipSet W) evts R A :
  (R, A) = batch fn evts → non_nil R || non_nil A = false → evts = [].
Proof.
  intros E Hn. destruct evts as [|e evts]; [done|].
  destruct (batch_non_nil fn (e :: evts)) as [H1 _]; [done|].
  rewrite <- E in H1; simpl in H1. by rewrite H1 in Hn.
Qed.

Lemma delivered_dispatch (fn : ReorgNotifee TipSet W) m t evts m' :
  delivered fn m evts →
  non_nil (c_revert (hcc m)) || non_nil (c_apply (hcc m)) = true →
  calls m' = calls m ++ [Call t (c_revert (hcc m)) (c_apply (hcc m))] →
  c_revert (hcc m') = None →
  c_apply (hcc m') = None →
  delivered fn m' evts.
Proof.
  intros (groups & cur & -> & Hne & Hcalls & Hpend & _) Hn Ec ER EA.
  exists (groups ++ [cur]), []. repeat split.
  - rewrite concat_app; simpl. by rewrite !app_nil_r.
  - apply Forall_app. split; [done|]. constructor; [|constructor].
    intros ->. unfold batch in Hpend; simpl in Hpend.
    injection Hpend as ER' EA'. by rewrite ER', EA' in Hn.
  - rewrite Ec, !fmap_app, Hcalls; simpl. by rewrite Hpend.
  - by rewrite ER, EA.
Qed.

Lemma delivered_exec (fn : ReorgNotifee TipSet W) m ta evts :
  well_kept m →
  delivered fn m evts →
  delivered fn (exec delay m ta)
    (evts ++ if ctx_done (hcc m) then [] else accepted [ta]).
Proof.
  intros (Hboth & Htimer & Hret & _) Hdel.
  destruct ta as [t [r a| | |]]; unfold exec; simpl.
  - unfold HeadChange. destruct (ctx_done (hcc m)) eqn:Hl; simpl.
    + by rewrite app_nil_r.
    + destruct Hdel as (groups & cur & -> & Hne & Hcalls & Hpend & Hcur).
      exists groups, (cur ++ [HC r a]). repeat split; try done.
      * by rewrite app_assoc.
      * by apply batch_snoc.
      * intros Hr. destruct (Hret Hr). congruence.
  - destruct (ctx_done (hcc m)) eqn:Hl; rewrite app_nil_r; [done|].
    destruct Hdel as (groups & cur & -> & Hne & Hcalls & Hpend & Hcur).
    by exists groups, cur.
  - assert (Hevts : evts ++ (if ctx_done (hcc m) then [] else []) = evts)
      by (destruct (ctx_done (hcc m)); by rewrite app_nil_r).
    rewrite Hevts. unfold background_iter.
    destruct (ready t RecvTimer m) eqn:Hrdy; simpl; [|done].
    unfold ready in Hrdy. apply andb_true_iff in Hrdy as [Hr Hd].
    destruct (timerC m) as [d|] eqn:Ht; [|done].
    destruct (Htimer Hr) as [HR _]. specialize (HR (ex_intro _ d eq_refl)).
    eapply delivered_dispatch; [done|by rewrite HR|apply calls_on_timer|..];
      unfold on_timer; simpl; by rewrite dispatch_hcc.
  - assert (Hevts : evts ++ (if ctx_done (hcc m) then [] else []) = evts)
      by (destruct (ctx_done (hcc m)); by rewrite app_nil_r).
    rewrite Hevts. unfold background_iter.
    destruct (ready t RecvDone m) eqn:Hrdy; simpl; [|done].
    destruct (non_nil (c_revert (hcc m)) || non_nil (c_apply (hcc m))) eqn:E.
    + eapply delivered_dispatch; [done|done|by rewrite calls_on_done, E|..];
        unfold on_done; rewrite E; simpl; by rewrite dispatch_hcc.
    + destruct Hdel as (groups & cur & -> & Hne & Hcalls & Hpend & Hcur).
      exists groups, cur. unfold on_done; rewrite E; simpl.
      repeat split; try done. intros _. by eapply batch_nil_inv.
Qed.

Lemma accepted_cons m ta sched :
  (if ctx_done (hcc m) then [] else accepted (ta :: sched))
  = (if ctx_done (hcc m) then [] else accepted [ta])
    ++ (if ctx_done (hcc (exec delay m ta)) then [] else accepted sched).
Proof.
  rewrite ctx_done_exec_eq.
  destruct (ctx_done (hcc m)); [done|].
  destruct ta as [t [r a| | |]]; simpl; done.
Qed.

Lemma delivered_run (fn : ReorgNotifee TipSet W) sched m evts :
  well_kept m →
  delivered fn m evts →
  delivered fn (run delay sched m)
    (evts ++ if ctx_done (hcc m) then [] else accepted sched).
Proof.
  revert m evts. induction sched as [|ta sched IH]; intros m evts Hm Hdel.
  - simpl. destruct (ctx_done (hcc m)); by rewrite app_nil_r.
  - rewrite run_cons, accepted_cons, app_assoc.
    apply IH; [by apply well_kept_exec|by apply delivered_exec].
Qed.

(** X16. Nothing is lost, repeated or reordered. In every state a coalescer
    reaches, the events [HeadChange] has accepted split, in the order of
    their submission, into consecutive groups: one non-empty group for each
    invocation of the callback so far, which received the group merged in
    order from nothing pending, and a last group whose merge is Pending
    State. Once the loop has returned the last group is empty: every
    accepted event has been handed to the callback in exactly one batch. *)
Theorem accepted_events_delivered_once
    (fn : ReorgNotifee TipSet W) (w : W) sched :
  delivered fn (run delay sched (NewHeadChangeCoalescer fn w))
    (accepted sched).
Proof.
  apply (delivered_run fn sched (NewHeadChangeCoalescer fn w) []).
  - apply well_kept_New.
  - exists [], []. repeat split; constructor.
Qed.

End FurtherLoopProperties.


(** * Further examples on sample data *)

Section FurtherExamples.
Import Sample.

(** Two submissions dispatched by the timer and a third flushed by [Close]:
    the accepted events, the groups and the batches. *)
Example three_events_two_batches :
  accepted [(0, Submit None (Some [T1])); (6, Submit (Some [T1]) (Some [T2]));
            (10, Expire); (12, Submit None (Some [T3])); (13, Shutdown);
            (14, Submit None (Some [T1])); (15, Observe)]
  = [HC None (Some [T1]); HC (Some [T1]) (Some [T2]); HC None (Some [T3])]
  ∧ calls (run 10 [(0, Submit None (Some [T1]));
                   (6, Submit (Some [T1]) (Some [T2]));
                   (10, Expire); (12, Submit None (Some [T3]));
                   (13, Shutdown); (14, Submit None (Some [T1]));
                   (15, Observe)] fresh)
    = [Call 10 (Some []) (Some [T2]); Call 15 (Some []) (Some [T3])]
  ∧ batch accept [HC None (Some [T1]); HC (Some [T1]) (Some [T2])]
    = (Some [], Some [T2])
  ∧ batch accept [HC None (Some [T3])] = (Some [], Some [T3]).
Proof. vm_compute. repeat split. Qed.

Lemma coalesce_inverse_cancels_witness :
  c_revert (coalesce (coalesce (hcc fresh) (Some [T1; T2]) (Some [T3]))
              (Some [T3]) (Some [T1; T2])) = Some []
  ∧ c_apply (coalesce (coalesce (hcc fresh) (Some [T1; T2]) (Some [T3]))
               (Some [T3]) (Some [T1; T2])) = Some [].
Proof.
  exact (coalesce_inverse_cancels (hcc fresh) (Some [T1; T2]) (Some [T3])
           eq_refl eq_refl).
Defined.

Lemma coalesce_unrelated_concatenates_witness :
  c_revert (coalesce (Coalescer accept false (Some [T2]) (Some [T1]))
              (Some [T2]) (Some [T3; T3]))
  = Some ([T2] ++ [T2])
  ∧ c_apply (coalesce (Coalescer accept false (Some [T2]) (Some [T1]))
               (Some [T2]) (Some [T3; T3]))
    = Some ([T1] ++ [T3; T3]).
Proof.
  apply (coalesce_unrelated_concatenates
           (Coalescer accept false (Some [T2]) (Some [T1]))
           (Some [T2]) (Some [T3; T3]));
    apply key_disjoint_check; vm_compute; reflexivity.
Defined.

Lemma empty_event_is_dispatched_witness :
  timerC (run 10 [(0, Submit (Some []) None)] fresh) = Some (0 + 10)
  ∧ calls (run 10 [(0, Submit (Some []) None); (0 + 10, Expire)] fresh)
    = calls fresh ++ [Call (0 + 10) (Some []) (Some [])].
Proof.
  apply (empty_event_is_dispatched 10 fresh 0 (Some []) None).
  - repeat split.
  - reflexivity.
  - reflexivity.
Defined.

Lemma returned_loop_leaves_nothing_pending_witness :
  pending_nil (run 10 [(0, Submit None (Some [T1])); (1, Shutdown);
                       (2, Observe)] fresh)
  ∧ ctx_done (hcc (run 10 [(0, Submit None (Some [T1])); (1, Shutdown);
                           (2, Observe)] fresh)) = true
  ∧ shuts_down [(0, Submit None (Some [T1])); (1, Shutdown);
                (2, @Observe tipset)] = true.
Proof.
  apply (returned_loop_leaves_nothing_pending 10 accept 0%nat
           [(0, Submit None (Some [T1])); (1, Shutdown); (2, Observe)]).
  vm_compute. reflexivity.
Defined.

Lemma timer_armed_iff_pending_witness :
  (is_Some (timerC (run 10 [(0, Submit None (Some [T1]))] fresh))
   ↔ non_nil (c_revert (hcc (run 10 [(0, Submit None (Some [T1]))] fresh)))
     = true)
  ∧ non_nil (c_revert (hcc (run 10 [(0, Submit None (Some [T1]))] fresh)))
    = non_nil (c_apply (hcc (run 10 [(0, Submit None (Some [T1]))] fresh))).
Proof.
  apply (timer_armed_iff_pending 10 accept 0%nat
           [(0, Submit None (Some [T1]))]).
  vm_compute. reflexivity.
Defined.

Lemma no_dispatch_inside_window_witness :
  calls (run 10 ((0, Submit None (Some [T1]))
                 :: [(3, Submit None (Some [T2])); (5, Expire);
                     (9, Observe)]) fresh) = calls fresh
  ∧ timerC (run 10 ((0, Submit None (Some [T1]))
                    :: [(3, Submit None (Some [T2])); (5, Expire);
                        (9, Observe)]) fresh) = Some (0 + 10)
  ∧ running (run 10 ((0, Submit None (Some [T1]))
                     :: [(3, Submit None (Some [T2])); (5, Expire);
                         (9, Observe)]) fresh) = true.
Proof.
  apply (no_dispatch_inside_window 10 fresh 0 None (Some [T1])
           [(3, Submit None (Some [T2])); (5, Expire); (9, Observe)]).
  - reflexivity.
  - reflexivity.
  - reflexivity.
  - repeat (constructor; [split; [simpl; lia|discriminate]|]). constructor.
Defined.

Lemma dispatched_batches_key_disjoint_witness :
  Forall (λ cl, key_disjoint (call_revert cl) (call_apply cl))
    (calls (run 10 [(0, Submit None (Some [T1]));
                    (1, Submit (Some [T1]) (Some [T2]));
                    (10, Expire)] fresh)).
Proof.
  apply (dispatched_batches_key_disjoint 10 accept 0%nat).
  repeat (constructor;
          [first [exact I
                 |apply key_disjoint_check; vm_compute; reflexivity]|]).
  constructor.
Defined.

Lemma wrapped_notifee_never_fails_witness :
  ((WrapHeadChangeCoalescer accept 10 0%nat).2 11 None (Some [T2])
     (run 10 [(0, Submit None (Some [T1])); (10, Expire)]
        (WrapHeadChangeCoalescer accept 10 0%nat).1)).1 = None
  ∧ ctx_done (hcc (run 10 [(0, Submit None (Some [T1])); (10, Expire)]
                     (WrapHeadChangeCoalescer accept 10 0%nat).1)) = false
  ∧ running (run 10 [(0, Submit None (Some [T1])); (10, Expire)]
               (WrapHeadChangeCoalescer accept 10 0%nat).1) = true.
Proof.
  apply (wrapped_notifee_never_fails 10 accept 0%nat
           [(0, Submit None (Some [T1])); (10, Expire)] 11 None (Some [T2])).
  reflexivity.
Defined.

Lemma log_holds_callback_errors_witness :
  Forall (λ e, e = Failure "state computation failed")
    (logged (run 10 [(0, Submit None (Some [T1])); (10, Expire)]
               fresh_rejecting))
  ∧ le (length (logged (run 10 [(0, Submit None (Some [T1])); (10, Expire)]
                          fresh_rejecting)))
       (length (calls (run 10 [(0, Submit None (Some [T1])); (10, Expire)]
                         fresh_rejecting))).
Proof.
  apply (log_holds_callback_errors 10 reject 0%nat
           [(0, Submit None (Some [T1])); (10, Expire)]
           (λ e, e = Failure "state computation failed")).
  intros r a w e E. simpl in E. by injection E as <-.
Defined.
End FurtherExamples.
